(** * Isolation game-playing agent: heuristics, minimax and alpha-beta search

    A shallow embedding of [game_agent.py]: the three evaluation functions
    ([custom_score], [custom_score_2], [custom_score_3]), the fixed-depth
    [MinimaxPlayer] and the iterative-deepening [AlphaBetaPlayer], together
    with the properties the specification states about them. *)

From Stdlib Require Import ZArith QArith List Bool Lia Arith.
From Stdlib Require Import Equalities Orders OrdersTac.
Import ListNotations.

Set Implicit Arguments.

(** ** Python floats, as far as the agent uses them

    Every score is [float("-inf")], [float("inf")] or a finite number.  The
    finite numbers the heuristics build are small integers, halves and
    quarters, which binary floating point represents exactly, so they are
    kept as rationals.  NaN never arises (no heuristic subtracts
    infinities). *)

Inductive pyfloat : Type :=
| neg_inf
| fin (q : Q)
| pos_inf.

Definition pyfloat_compare (x y : pyfloat) : comparison :=
  match x, y with
  | neg_inf, neg_inf => Eq
  | neg_inf, _ => Lt
  | fin _, neg_inf => Gt
  | fin a, fin b => (a ?= b)%Q
  | fin _, pos_inf => Lt
  | pos_inf, pos_inf => Eq
  | pos_inf, _ => Gt
  end.

(** [x < y], [x <= y] on floats; [x > y] is [ltb y x], [x >= y] is [leb y x]. *)
Definition ltb (x y : pyfloat) : bool :=
  match pyfloat_compare x y with Lt => true | _ => false end.

Definition leb (x y : pyfloat) : bool :=
  match pyfloat_compare x y with Gt => false | _ => true end.

(** The builtins [min(v, x)] and [max(v, x)]: on a tie the first argument is
    returned. *)
Definition py_min (v x : pyfloat) : pyfloat := if ltb x v then x else v.
Definition py_max (v x : pyfloat) : pyfloat := if ltb v x then x else v.

(** [t < threshold] and [t > threshold] on the millisecond readings. *)
Definition Qltb (x y : Q) : bool := negb (Qle_bool y x).

(** ** The order on floats

    Two finite floats are equal when they denote the same rational; the
    order is total, with the infinities at both ends. *)

Definition pf_eq (x y : pyfloat) : Prop := pyfloat_compare x y = Eq.
Definition pf_lt (x y : pyfloat) : Prop := pyfloat_compare x y = Lt.
Definition pf_le (x y : pyfloat) : Prop := pyfloat_compare x y <> Gt.


(** ** The board capability

    [game_agent.py] receives the board as an object of class
    [isolation.Board] and only calls the methods below.  The two players
    registered with a board are the values of [player]; a [move] is a
    (row, column) pair and [(-1, -1)] is the no-move value. *)

Inductive player : Type := player_1 | player_2.

Definition player_eqb (p q : player) : bool :=
  match p, q with
  | player_1, player_1 | player_2, player_2 => true
  | _, _ => false
  end.

Definition move : Type := (Z * Z)%type.

Definition no_move : move := (-1, -1)%Z.

Definition move_eqb (a b : move) : bool :=
  (fst a =? fst b)%Z && (snd a =? snd b)%Z.

(** [get_legal_moves game None] is the call [game.get_legal_moves()], the
    moves of the player whose turn it is. *)
Class Board (board : Type) : Type := {
  width : board -> Z;
  height : board -> Z;
  get_legal_moves : board -> option player -> list move;
  forecast_move : board -> move -> board;
  get_opponent : board -> player -> player;
  get_player_location : board -> player -> option move;
  get_blank_spaces : board -> list move;
  is_loser : board -> player -> bool;
  is_winner : board -> player -> bool
}.

(** [len(xs)] as a Python int, and [not xs] on a list. *)
Definition len {A : Type} (xs : list A) : Z := Z.of_nat (length xs).

Definition is_empty {A : Type} (xs : list A) : bool :=
  match xs with [] => true | _ :: _ => false end.

(** ** Evaluation functions *)

Section Heuristics.

Context {board : Type} `{Board board}.

(** A [for] loop whose body may fail (here: run out of fuel) and whose
    results are thrown away. *)
Fixpoint for_each {A B : Type} (body : A -> option B) (xs : list A)
  : option unit :=
  match xs with
  | [] => Some tt
  | x :: rest =>
      match body x with
      | None => None
      | Some _ => for_each body rest
      end
  end.

(** The inner function [longestPath] of [custom_score].  [longest] and
    [path] are integers, local to each call: the recursive call receives
    copies and its return value is not bound to anything.  The recursion
    ends when the boards run out of moves; [fuel] bounds its depth and
    [None] means the bound was reached. *)
Fixpoint longestPath (fuel : nat) (player0 : player) (game : board)
  (path longest : Z) : option Z :=
  match fuel with
  | O => None
  | S fuel' =>
      let moves := get_legal_moves game (Some player0) in
      let longest := if (longest <? path)%Z then path else longest in
      let path := if (len moves =? 0)%Z then 0%Z else path in
      match
        for_each
          (fun move0 =>
             let new_board := forecast_move game move0 in
             longestPath fuel' player0 new_board (path + 1) longest)
          moves
      with
      | None => None
      | Some _ => Some longest
      end
  end.

(** [float(len(game.get_legal_moves(player))) -
     2.0 * float(len(game.get_legal_moves(opponent)))] *)
Definition mobility_difference (game : board) (player0 opponent : player) : Q :=
  inject_Z (len (get_legal_moves game (Some player0)))
  - 2 * inject_Z (len (get_legal_moves game (Some opponent))).

Definition custom_score (fuel : nat) (game : board) (player0 : player)
  : option pyfloat :=
  if is_loser game player0 then Some neg_inf
  else if is_winner game player0 then Some pos_inf
  else
    let game_phase := len (get_blank_spaces game) in
    let max_phase := (width game * height game)%Z in
    if (game_phase <? 15)%Z then
      let game_phase := Z.abs (game_phase - max_phase) in
      match longestPath fuel player0 game 0 0 with
      | None => None
      | Some mine =>
          match longestPath fuel (get_opponent game player0) game 0 0 with
          | None => None
          | Some theirs => Some (fin (inject_Z (mine - theirs)))
          end
      end
    else
      let opponent := get_opponent game player0 in
      Some (fin (mobility_difference game player0 opponent)).

Definition custom_score_2 (game : board) (player0 : player) : pyfloat :=
  if is_loser game player0 then neg_inf
  else if is_winner game player0 then pos_inf
  else
    let opponent := get_opponent game player0 in
    fin (mobility_difference game player0 opponent).

(** Comparison of a location with a pair of floats: [None] (a player that
    has not moved yet) differs from every pair, and an int equals a float
    when they denote the same number. *)
Definition cell_is (cell : move) (point : Q * Q) : bool :=
  Qeq_bool (inject_Z (fst cell)) (fst point)
  && Qeq_bool (inject_Z (snd cell)) (snd point).

Definition location_is (loc : option move) (point : Q * Q) : bool :=
  match loc with
  | None => false
  | Some cell => cell_is cell point
  end.

Definition directions : list (Z * Z) :=
  [(-2, -1); (-2, 1); (-1, -2); (-1, 2); (1, -2); (1, 2); (2, -1); (2, 1)]%Z.

(** [custom_score_3]; [None] is the [TypeError] Python raises when the
    location of a player that has not moved is unpacked or iterated. *)
Definition custom_score_3 (game : board) (player0 : player) : option pyfloat :=
  if is_loser game player0 then Some neg_inf
  else if is_winner game player0 then Some pos_inf
  else
    let game_phase := len (get_blank_spaces game) in
    let center := (inject_Z (width game) / 2, inject_Z (height game) / 2) in
    let opponent := get_opponent game player0 in
    let loc_player := get_player_location game player0 in
    let loc_opponent := get_player_location game opponent in
    let trueCentre :=
      negb (width game mod 2 =? 0)%Z && negb (height game mod 2 =? 0)%Z in
    let mirror (x : Z) := Z.abs (x - (width game - 1)) in
    match
      (if trueCentre
       then option_map (fun loc => (mirror (fst loc), mirror (snd loc))) loc_player
       else Some no_move)
    with
    | None => None
    | Some loc_mirror =>
        if location_is loc_player center then Some pos_inf
        else
          let avoidable_positions :=
            map (fun d => (fst center + inject_Z (fst d),
                           snd center + inject_Z (snd d))) directions in
          if location_is loc_opponent center
             && existsb (location_is loc_player) avoidable_positions
          then Some neg_inf
          else if trueCentre
                  && negb (existsb (fun cell => cell_is cell center)
                             (get_blank_spaces game))
                  && match loc_opponent with
                     | None => false
                     | Some cell => move_eqb cell loc_mirror
                     end
                  && (len (get_legal_moves game (Some player0))
                      =? len (get_legal_moves game (Some opponent)))%Z
          then Some pos_inf
          else
            match loc_player with
            | None => None
            | Some (y, x) =>
                let w := fst center in
                let h := snd center in
                let dist := (h - inject_Z y) ^ 2 + (w - inject_Z x) ^ 2 in
                Some (fin ((mobility_difference game player0 opponent - dist)
                           * inject_Z game_phase))
            end
    end.

End Heuristics.

(** ** A concrete board *)

(** Modelled from the spec: the Board Capability of section 4.1, whose class
    [isolation.Board] is not among the sources.  A grid of [grid_height]
    rows and [grid_width] columns; a cell is blank until a player lands on
    it and is never freed; a player moves as a chess knight, and a player
    that has not been placed yet may land on any blank cell.  It serves as
    the board of the concrete games below; the general statements hold for
    every instance of [Board]. *)

Module Isolation.

Record Grid : Type := {
  grid_width : Z;
  grid_height : Z;
  taken : list move;
  location_1 : option move;
  location_2 : option move;
  active_player : player
}.

Definition new_board (w h : Z) : Grid :=
  {| grid_width := w; grid_height := h; taken := [];
     location_1 := None; location_2 := None; active_player := player_1 |}.

Definition other (p : player) : player :=
  match p with player_1 => player_2 | player_2 => player_1 end.

Definition inactive_player (g : Grid) : player := other (active_player g).

Definition location (g : Grid) (p : player) : option move :=
  match p with player_1 => location_1 g | player_2 => location_2 g end.

Definition move_is_legal (g : Grid) (m : move) : bool :=
  (0 <=? fst m)%Z && (fst m <? grid_height g)%Z
  && (0 <=? snd m)%Z && (snd m <? grid_width g)%Z
  && negb (existsb (move_eqb m) (taken g)).

Definition range (n : Z) : list Z := map Z.of_nat (seq 0 (Z.to_nat n)).

(** Column by column, as the list comprehension of the original. *)
Definition blank_spaces (g : Grid) : list move :=
  flat_map
    (fun j => filter (move_is_legal g) (map (fun i => (i, j)) (range (grid_height g))))
    (range (grid_width g)).

Definition moves_from (g : Grid) (loc : option move) : list move :=
  match loc with
  | None => blank_spaces g
  | Some (r, c) =>
      filter (move_is_legal g)
        (map (fun d => (r + fst d, c + snd d)%Z) directions)
  end.

Definition legal_moves (g : Grid) (p : option player) : list move :=
  match p with
  | None => moves_from g (location g (active_player g))
  | Some q => moves_from g (location g q)
  end.

Definition apply_move (g : Grid) (m : move) : Grid :=
  {| grid_width := grid_width g;
     grid_height := grid_height g;
     taken := m :: taken g;
     location_1 :=
       match active_player g with player_1 => Some m | player_2 => location_1 g end;
     location_2 :=
       match active_player g with player_1 => location_2 g | player_2 => Some m end;
     active_player := inactive_player g |}.

Definition loser (g : Grid) (p : player) : bool :=
  player_eqb p (active_player g) && is_empty (legal_moves g None).

Definition winner (g : Grid) (p : player) : bool :=
  player_eqb p (inactive_player g) && is_empty (legal_moves g None).

(** The position reached from [g] by the given moves, played in turn. *)
Definition play (g : Grid) (ms : list move) : Grid := fold_left apply_move ms g.

End Isolation.

#[global]
Instance Isolation_Board : Board Isolation.Grid := {
  width := Isolation.grid_width;
  height := Isolation.grid_height;
  get_legal_moves := Isolation.legal_moves;
  forecast_move := Isolation.apply_move;
  get_opponent := fun _ p => Isolation.other p;
  get_player_location := Isolation.location;
  get_blank_spaces := Isolation.blank_spaces;
  is_loser := Isolation.loser;
  is_winner := Isolation.winner
}.

(** Two positions used throughout.  [endgame_3x3]: on a 3 by 3 board,
    [player_1] went (1,2) then (0,0) and [player_2] went (2,2) then (1,0);
    [player_1] is to move and has the single move (2,1).
    [centre_7x7]: on the default 7 by 7 board [player_1] has opened on the
    middle cell (3,3) and [player_2] has not been placed yet. *)
Definition endgame_3x3 : Isolation.Grid :=
  Isolation.play (Isolation.new_board 3 3) [(1, 2); (2, 2); (0, 0); (1, 0)]%Z.

Definition centre_7x7 : Isolation.Grid :=
  Isolation.play (Isolation.new_board 7 7) [(3, 3)]%Z.

(** ** Effects of a search

    A search reads the clock through the callable [time_left] and calls the
    evaluation function.  [time_left k] is the reading of the [k]-th call of
    the callable; the world counts the calls made so far and records each
    call of [self.score(game, self)], with the depth variable of the frame
    that made it.  A computation ends by returning, by raising, or (a bound
    of the model only) by running out of fuel. *)

Inductive exn : Type := SearchTimeout | ValueError.

Inductive outcome (A : Type) : Type :=
| Returned (a : A)
| Raised (e : exn)
| OutOfFuel.

Arguments Returned {A} a.
Arguments Raised {A} e.
Arguments OutOfFuel {A}.

Section Effects.

Context {board : Type}.

Record world : Type := {
  clock : nat;
  evaluated : list (board * nat)
}.

Definition M (A : Type) : Type := world -> outcome A * world.

Definition ret {A : Type} (a : A) : M A := fun w => (Returned a, w).

Definition bind {A B : Type} (c : M A) (k : A -> M B) : M B :=
  fun w =>
    match c w with
    | (Returned a, w') => k a w'
    | (Raised e, w') => (Raised e, w')
    | (OutOfFuel, w') => (OutOfFuel, w')
    end.

Definition raise {A : Type} (e : exn) : M A := fun w => (Raised e, w).

Definition out_of_fuel {A : Type} : M A := fun w => (OutOfFuel, w).

(** [try: x = body; rest(x)] with [except SearchTimeout: handler], for a
    [rest] that handles its own timeouts. *)
Definition try_except {A B : Type} (body : M A) (rest : A -> M B)
  (handler : M B) : M B :=
  fun w =>
    match body w with
    | (Returned a, w') => rest a w'
    | (Raised SearchTimeout, w') => handler w'
    | (Raised e, w') => (Raised e, w')
    | (OutOfFuel, w') => (OutOfFuel, w')
    end.

Definition tick (w : world) : world :=
  {| clock := S (clock w); evaluated := evaluated w |}.

Definition record_score (game : board) (depth : nat) (w : world) : world :=
  {| clock := clock w; evaluated := (game, depth) :: evaluated w |}.

(** One call [self.time_left()]. *)
Definition call_time_left (time_left : nat -> Q) : M Q :=
  fun w => (Returned (time_left (clock w)), tick w).

End Effects.

Arguments world board : clear implicits.
Arguments M board A : clear implicits.

Declare Scope search_scope.
Delimit Scope search_scope with search.
Notation "x <- c ;; k" := (bind c (fun x => k))
  (at level 61, c at next level, right associativity) : search_scope.
Notation "c ;; k" := (bind c (fun _ => k))
  (at level 61, right associativity) : search_scope.

(** ** The agents *)

(** The fields of [IsolationPlayer.__init__], and which of the board's two
    players the agent is (the [self] handed to the evaluation function).
    [time_left] is set by [get_move] and is a parameter of the methods. *)
Record IsolationPlayer (board : Type) : Type := {
  identity : player;
  search_depth : nat;
  score : board -> player -> pyfloat;
  TIMER_THRESHOLD : Q
}.

Section Common.

Context {board : Type} `{Board board}.
Variable self : IsolationPlayer board.
Variable time_left : nat -> Q.

Local Open Scope search_scope.

(** [if self.time_left() < self.TIMER_THRESHOLD: raise SearchTimeout()] *)
Definition check_time : M board unit :=
  t <- call_time_left time_left ;;
  if Qltb t (TIMER_THRESHOLD self) then raise SearchTimeout else ret tt.

(** [self.score(game, self)], called from a frame whose depth variable is
    [depth]. *)
Definition call_score (game : board) (depth : nat) : M board pyfloat :=
  fun w => (Returned (score self game (identity self)), record_score game depth w).

End Common.

Module MinimaxPlayer.

Section Methods.

Context {board : Type} `{Board board}.
Variable self : IsolationPlayer board.
Variable time_left : nat -> Q.

Local Open Scope search_scope.

(** The loop of [min_value]:
    [for m in moves: check the clock; v = min(v, max_value(forecast(m)))]. *)
Fixpoint min_loop (child : board -> M board pyfloat) (game : board)
  (v : pyfloat) (moves : list move) : M board pyfloat :=
  match moves with
  | [] => ret v
  | m :: rest =>
      check_time self time_left ;;
      x <- child (forecast_move game m) ;;
      min_loop child game (py_min v x) rest
  end.

Fixpoint max_loop (child : board -> M board pyfloat) (game : board)
  (v : pyfloat) (moves : list move) : M board pyfloat :=
  match moves with
  | [] => ret v
  | m :: rest =>
      check_time self time_left ;;
      x <- child (forecast_move game m) ;;
      max_loop child game (py_max v x) rest
  end.

(** The inner functions of [minimax game depth].  The recursion ends when
    [traversed_depth] meets [depth] or the moves run out; [fuel] bounds the
    number of nested calls. *)
Fixpoint min_value (depth fuel : nat) (game : board) (traversed_depth : nat)
  {struct fuel} : M board pyfloat :=
  match fuel with
  | O => out_of_fuel
  | S fuel' =>
      check_time self time_left ;;
      if (traversed_depth =? depth)%nat then call_score self game traversed_depth
      else
        let traversed_depth := (traversed_depth + 1)%nat in
        min_loop (fun g => max_value depth fuel' g traversed_depth)
          game pos_inf (get_legal_moves game None)
  end
with max_value (depth fuel : nat) (game : board) (traversed_depth : nat)
  {struct fuel} : M board pyfloat :=
  match fuel with
  | O => out_of_fuel
  | S fuel' =>
      check_time self time_left ;;
      if (traversed_depth =? depth)%nat then call_score self game traversed_depth
      else
        let traversed_depth := (traversed_depth + 1)%nat in
        max_loop (fun g => min_value depth fuel' g traversed_depth)
          game neg_inf (get_legal_moves game None)
  end.

(** The builtin [max(items, key=key)]: the first item whose key is
    greatest; [ValueError] on an empty list. *)
Fixpoint max_scan (key : move -> M board pyfloat) (max_item : move)
  (max_key : pyfloat) (items : list move) : M board move :=
  match items with
  | [] => ret max_item
  | item :: rest =>
      k <- key item ;;
      if ltb max_key k then max_scan key item k rest
      else max_scan key max_item max_key rest
  end.

Definition max_by_key (key : move -> M board pyfloat) (items : list move)
  : M board move :=
  match items with
  | [] => raise ValueError
  | item :: rest => k <- key item ;; max_scan key item k rest
  end.

Definition minimax (fuel : nat) (game : board) (depth : nat) : M board move :=
  max_by_key (fun m => min_value depth fuel (forecast_move game m) 1)
    (get_legal_moves game None).

Definition get_move (fuel : nat) (game : board) : M board move :=
  match get_legal_moves game None with
  | [] => ret no_move
  | best_move :: _ =>
      try_except (minimax fuel game (search_depth self))
        (fun m => ret m)
        (ret best_move)
  end.

End Methods.

End MinimaxPlayer.

Module AlphaBetaPlayer.

Section Methods.

Context {board : Type} `{Board board}.
Variable self : IsolationPlayer board.
Variable time_left : nat -> Q.

Local Open Scope search_scope.

(** The loop of [min_value]: stop with [v] as soon as [v <= alpha],
    otherwise lower [beta]. *)
Fixpoint min_loop (child : board -> pyfloat -> pyfloat -> M board pyfloat)
  (game : board) (alpha beta v : pyfloat) (moves : list move)
  : M board pyfloat :=
  match moves with
  | [] => ret v
  | m :: rest =>
      x <- child (forecast_move game m) alpha beta ;;
      let v := py_min v x in
      if leb v alpha then ret v
      else min_loop child game alpha (py_min beta v) v rest
  end.

Fixpoint max_loop (child : board -> pyfloat -> pyfloat -> M board pyfloat)
  (game : board) (alpha beta v : pyfloat) (moves : list move)
  : M board pyfloat :=
  match moves with
  | [] => ret v
  | m :: rest =>
      x <- child (forecast_move game m) alpha beta ;;
      let v := py_max v x in
      if leb beta v then ret v
      else max_loop child game (py_max alpha v) beta v rest
  end.

(** The inner functions of [alphabeta]; [depth] counts down to 0. *)
Fixpoint min_value (game : board) (depth : nat) (alpha beta : pyfloat)
  {struct depth} : M board pyfloat :=
  check_time self time_left ;;
  match depth with
  | O => call_score self game depth
  | S depth_1 =>
      if is_empty (get_legal_moves game None) then call_score self game depth
      else
        min_loop (fun g a b => max_value g depth_1 a b)
          game alpha beta pos_inf (get_legal_moves game None)
  end
with max_value (game : board) (depth : nat) (alpha beta : pyfloat)
  {struct depth} : M board pyfloat :=
  check_time self time_left ;;
  match depth with
  | O => call_score self game depth
  | S depth_1 =>
      if is_empty (get_legal_moves game None) then call_score self game depth
      else
        max_loop (fun g a b => min_value g depth_1 a b)
          game alpha beta neg_inf (get_legal_moves game None)
  end.

(** The loop at the root of [alphabeta]. *)
Fixpoint root_loop (game : board) (depth : nat) (alpha beta best_val : pyfloat)
  (best_move : move) (moves : list move) : M board move :=
  match moves with
  | [] => ret best_move
  | move0 :: rest =>
      v <- min_value (forecast_move game move0) (depth - 1)%nat alpha beta ;;
      let best_val' := if ltb best_val v then v else best_val in
      let best_move' := if ltb best_val v then move0 else best_move in
      root_loop game depth (py_max alpha best_val') beta best_val' best_move' rest
  end.

(** [alphabeta game depth alpha beta], for [depth >= 1] as the method is
    always called. *)
Definition alphabeta (game : board) (depth : nat) (alpha beta : pyfloat)
  : M board move :=
  root_loop game depth alpha beta neg_inf no_move (get_legal_moves game None).

(** The [while] loop of [get_move] inside its [try]; [fuel] bounds the
    number of iterations.  The handler returns [last_move], which every
    iteration sets to the current [best_move] before searching. *)
Fixpoint deepening (fuel : nat) (game : board) (search_depth : nat)
  (best_move : move) : M board move :=
  match fuel with
  | O => out_of_fuel
  | S fuel' =>
      t <- call_time_left time_left ;;
      if Qltb (TIMER_THRESHOLD self) t then
        let last_move := best_move in
        try_except (alphabeta game search_depth neg_inf pos_inf)
          (fun best_move => deepening fuel' game (search_depth + 1)%nat best_move)
          (ret last_move)
      else ret best_move
  end.

Definition get_move (fuel : nat) (game : board) : M board move :=
  match get_legal_moves game None with
  | [] => ret no_move
  | best_move :: _ => deepening fuel game 1 best_move
  end.

End Methods.

End AlphaBetaPlayer.

(** The world before any call. *)
Definition start {board : Type} : world board :=
  {| clock := 0; evaluated := [] |}.

(** Every call of the evaluation function recorded in [w] was made by a
    frame whose depth variable was [depth]. *)
Definition scored_at {board : Type} (depth : nat) (w : world board) : Prop :=
  Forall (fun call => snd call = depth) (evaluated w).

(** Every step of the computation keeps the property [P] of the world. *)
Definition preserves {board A : Type} (P : world board -> Prop)
  (c : M board A) : Prop :=
  forall w, P w -> P (snd (c w)).

Section Readings.

Context {board : Type}.
Variable self : IsolationPlayer board.
Variable time_left : nat -> Q.

(** The reading the next call of [time_left] will give is below the
    threshold. *)
Definition expired (w : world board) : Prop :=
  (time_left (clock w) < TIMER_THRESHOLD self)%Q.

(** One of the readings taken between [w] and [w'] was below the
    threshold. *)
Definition expired_between (w w' : world board) : Prop :=
  exists k, (clock w <= k < clock w')%nat
            /\ (time_left k < TIMER_THRESHOLD self)%Q.

(** No reading from [w] on is below the threshold: an ample budget. *)
Definition ample (w : world board) : Prop :=
  forall k, (clock w <= k)%nat -> ~ (time_left k < TIMER_THRESHOLD self)%Q.

(** A computation unwinds on a timeout: the clock only advances, and when
    one of the readings it takes is below the threshold it ends by raising
    [SearchTimeout]. *)
Definition unwinds {A : Type} (c : M board A) : Prop :=
  forall w,
    (clock w <= clock (snd (c w)))%nat
    /\ (expired_between w (snd (c w)) -> fst (c w) = Raised SearchTimeout).

End Readings.

Section Iterations.

Context {board : Type} `{Board board}.
Variable self : IsolationPlayer board.
Variable time_left : nat -> Q.

(** The first [n] iterations of the loop of [AlphaBetaPlayer.get_move],
    entered at [search_depth] with [best_move], all complete: each time the
    reading is above the threshold and [alphabeta] returns.  The result is
    the [best_move] and the world after them. *)
Fixpoint completed_iterations (n : nat) (game : board) (search_depth : nat)
  (best_move : move) (w : world board) : option (move * world board) :=
  match n with
  | O => Some (best_move, w)
  | S n' =>
      if Qltb (TIMER_THRESHOLD self) (time_left (clock w)) then
        match
          AlphaBetaPlayer.alphabeta self time_left game search_depth
            neg_inf pos_inf (tick w)
        with
        | (Returned m, w') =>
            completed_iterations n' game (search_depth + 1)%nat m w'
        | _ => None
        end
      else None
  end.

End Iterations.

(** ** Values of the two searches

    What the searches compute when no timeout interrupts them, as functions
    of the board alone. *)

Section Values.

Context {board : Type} `{Board board}.
Variable self : IsolationPlayer board.

Definition evaluate (game : board) : pyfloat := score self game (identity self).

(** The value [MinimaxPlayer.min_value] and [max_value] give a node that
    lies [plies] plies above the cutoff. *)
Fixpoint minimax_min (plies : nat) (game : board) : pyfloat :=
  match plies with
  | O => evaluate game
  | S k =>
      fold_left (fun v m => py_min v (minimax_max k (forecast_move game m)))
        (get_legal_moves game None) pos_inf
  end
with minimax_max (plies : nat) (game : board) : pyfloat :=
  match plies with
  | O => evaluate game
  | S k =>
      fold_left (fun v m => py_max v (minimax_min k (forecast_move game m)))
        (get_legal_moves game None) neg_inf
  end.

(** The value [AlphaBetaPlayer.min_value] and [max_value] aim at: the same
    recursion without the cuts.  It differs from the one above at a node
    without moves, which is evaluated. *)
Fixpoint exact_min (depth : nat) (game : board) : pyfloat :=
  match depth with
  | O => evaluate game
  | S d =>
      if is_empty (get_legal_moves game None) then evaluate game
      else
        fold_left (fun v m => py_min v (exact_max d (forecast_move game m)))
          (get_legal_moves game None) pos_inf
  end
with exact_max (depth : nat) (game : board) : pyfloat :=
  match depth with
  | O => evaluate game
  | S d =>
      if is_empty (get_legal_moves game None) then evaluate game
      else
        fold_left (fun v m => py_max v (exact_min d (forecast_move game m)))
          (get_legal_moves game None) neg_inf
  end.

(** [AlphaBetaPlayer.min_value] and [max_value] with their cuts. *)
Fixpoint pruned_min_loop (child : board -> pyfloat -> pyfloat -> pyfloat)
  (game : board) (alpha beta v : pyfloat) (moves : list move) : pyfloat :=
  match moves with
  | [] => v
  | m :: rest =>
      let v := py_min v (child (forecast_move game m) alpha beta) in
      if leb v alpha then v
      else pruned_min_loop child game alpha (py_min beta v) v rest
  end.

Fixpoint pruned_max_loop (child : board -> pyfloat -> pyfloat -> pyfloat)
  (game : board) (alpha beta v : pyfloat) (moves : list move) : pyfloat :=
  match moves with
  | [] => v
  | m :: rest =>
      let v := py_max v (child (forecast_move game m) alpha beta) in
      if leb beta v then v
      else pruned_max_loop child game (py_max alpha v) beta v rest
  end.

Fixpoint pruned_min (game : board) (depth : nat) (alpha beta : pyfloat)
  : pyfloat :=
  match depth with
  | O => evaluate game
  | S d =>
      if is_empty (get_legal_moves game None) then evaluate game
      else
        pruned_min_loop (fun g a b => pruned_max g d a b)
          game alpha beta pos_inf (get_legal_moves game None)
  end
with pruned_max (game : board) (depth : nat) (alpha beta : pyfloat)
  : pyfloat :=
  match depth with
  | O => evaluate game
  | S d =>
      if is_empty (get_legal_moves game None) then evaluate game
      else
        pruned_max_loop (fun g a b => pruned_min g d a b)
          game alpha beta neg_inf (get_legal_moves game None)
  end.

(** The first move whose value is strictly above everything before it,
    starting from a value and a move already held. *)
Fixpoint best_from (value : move -> pyfloat) (best_val : pyfloat)
  (best_move : move) (moves : list move) : move :=
  match moves with
  | [] => best_move
  | m :: rest =>
      if ltb best_val (value m) then best_from value (value m) m rest
      else best_from value best_val best_move rest
  end.

(** The loop at the root of [alphabeta]. *)
Fixpoint pruned_root (game : board) (depth : nat) (alpha beta best_val : pyfloat)
  (best_move : move) (moves : list move) : move :=
  match moves with
  | [] => best_move
  | m :: rest =>
      let v := pruned_min (forecast_move game m) (depth - 1)%nat alpha beta in
      let best_val' := if ltb best_val v then v else best_val in
      let best_move' := if ltb best_val v then m else best_move in
      pruned_root game depth (py_max alpha best_val') beta best_val' best_move' rest
  end.

(** The backed-up minimax value of a move at the root of a search to
    [depth]. *)
Definition backed_up_value (depth : nat) (game : board) (m : move) : pyfloat :=
  minimax_min (depth - 1) (forecast_move game m).

Definition is_pos_inf (x : pyfloat) : bool :=
  match x with pos_inf => true | _ => false end.

Definition is_neg_inf (x : pyfloat) : bool :=
  match x with neg_inf => true | _ => false end.

(** The evaluation function agrees with the minimax loops on the nodes
    without moves met before the cutoff: plus infinity where the opponent
    is to move, minus infinity where the agent is. *)
Fixpoint dead_ends_min (plies : nat) (game : board) : bool :=
  match plies with
  | O => true
  | S k =>
      match get_legal_moves game None with
      | [] => is_pos_inf (evaluate game)
      | moves => forallb (fun m => dead_ends_max k (forecast_move game m)) moves
      end
  end
with dead_ends_max (plies : nat) (game : board) : bool :=
  match plies with
  | O => true
  | S k =>
      match get_legal_moves game None with
      | [] => is_neg_inf (evaluate game)
      | moves => forallb (fun m => dead_ends_min k (forecast_move game m)) moves
      end
  end.

End Values.

Section Equivalence.

Context {board : Type} `{Board board}.
Variable self : IsolationPlayer board.
Variable time_left : nat -> Q.

(** The two searches, run to the same depth, each return a move, and the
    two moves have the same backed-up minimax value. *)
Definition same_backed_up_value (fuel : nat) (game : board) (depth : nat)
  (w w' : world board) : Prop :=
  exists m_minimax m_alphabeta,
    fst (MinimaxPlayer.minimax self time_left fuel game depth w)
    = Returned m_minimax
    /\ fst (AlphaBetaPlayer.alphabeta self time_left game depth
              neg_inf pos_inf w')
       = Returned m_alphabeta
    /\ pf_eq (backed_up_value self depth game m_minimax)
             (backed_up_value self depth game m_alphabeta).

(** Under an ample budget the computation returns [a]. *)
Definition returns {A : Type} (c : M board A) (a : A) : Prop :=
  forall w,
    ample self time_left w ->
    exists w', c w = (Returned a, w') /\ (clock w <= clock w')%nat.

End Equivalence.

(** The result [r] of a search in the window from [alpha] to [beta]
    stands for the true value [t]: it is on the same side of the window,
    and equal to it inside. *)
Definition brackets (alpha beta r t : pyfloat) : Prop :=
  (pf_le t alpha -> pf_le r alpha)
  /\ (pf_le beta t -> pf_le beta r)
  /\ (pf_lt alpha t -> pf_lt t beta -> pf_eq r t).

(** What the loops keep while no cut has occurred: below the bound [b] the
    running value [v] is the true running value [tv], and it is not below
    [b] unless [tv] is not either. *)
Definition tracks_below (b v tv : pyfloat) : Prop :=
  (pf_lt v b -> pf_eq v tv) /\ (pf_le b v -> pf_le b tv).

Definition tracks_above (a v tv : pyfloat) : Prop :=
  (pf_lt a v -> pf_eq v tv) /\ (pf_le v a -> pf_le tv a).

(** ** Concrete games *)

(** On a board of 2 rows and 9 columns [player_1] stands on (0,4) and
    [player_2] on (0,8), each having been placed there; [player_1] is to
    move and may go to (1,2) or to (1,6).  After (1,6) [player_2] has no
    move left. *)
Definition corridor_2x9 : Isolation.Grid :=
  Isolation.play (Isolation.new_board 9 2) [(0, 4); (0, 8)]%Z.

(** On a 3 by 3 board [player_1] was placed on the middle cell, from which
    a knight cannot move, and is to move. *)
Definition stuck_3x3 : Isolation.Grid :=
  Isolation.play (Isolation.new_board 3 3) [(1, 1); (0, 0)]%Z.

(** An evaluation function without the two tests for a finished game: the
    mobility difference alone. *)
Definition mobility (game : Isolation.Grid) (p : player) : pyfloat :=
  fin (mobility_difference game p (get_opponent game p)).

(** [player_1] as an agent with the given evaluation function, the default
    search depth 3 and the default threshold of 20 milliseconds. *)
Definition agent (score_fn : Isolation.Grid -> player -> pyfloat)
  : IsolationPlayer Isolation.Grid :=
  {| identity := player_1; search_depth := 3; score := score_fn;
     TIMER_THRESHOLD := 20 |}.

(** Clocks: one that always reads 150 ms, one that loses 10 ms with every
    reading, one that reads 100 ms for the first [n] readings and 0 ms
    afterwards. *)
Definition steady (k : nat) : Q := 150.

Definition draining (k : nat) : Q := 150 - 10 * inject_Z (Z.of_nat k).

Definition cut_after (n : nat) (k : nat) : Q := if (k <? n)%nat then 100 else 0.

(** On a 3 by 3 board [player_1] was placed on the corner (0,0) and
    [player_2] on the middle cell (1,1); [player_1] is to move.  The eight
    outer cells form one cycle of knight moves. *)
Definition open_3x3 : Isolation.Grid :=
  Isolation.play (Isolation.new_board 3 3) [(0, 0); (1, 1)]%Z.

(** The board after [p], alone, has moved to [m]: the cell is taken and
    [p] stands on it; the other player and the turn are as before. *)
Definition land (g : Isolation.Grid) (p : player) (m : move) : Isolation.Grid :=
  {| Isolation.grid_width := Isolation.grid_width g;
     Isolation.grid_height := Isolation.grid_height g;
     Isolation.taken := m :: Isolation.taken g;
     Isolation.location_1 :=
       match p with player_1 => Some m | player_2 => Isolation.location_1 g end;
     Isolation.location_2 :=
       match p with player_1 => Isolation.location_2 g | player_2 => Some m end;
     Isolation.active_player := Isolation.active_player g |}.

(** Following the words of the specification: the longest sequence of
    moves [player0] can make from [game], every branch of its legal moves
    being explored until none remains, and the greatest length seen
    returned.  Each step is a move of [player0] itself.  [fuel] bounds the
    depth as in [longestPath]. *)
Fixpoint own_longest_path (fuel : nat) (player0 : player)
  (game : Isolation.Grid) : option Z :=
  match fuel with
  | O => None
  | S fuel' =>
      fold_left
        (fun longest move0 =>
           match longest, own_longest_path fuel' player0 (land game player0 move0) with
           | Some a, Some b => Some (Z.max a (b + 1))
           | _, _ => None
           end)
        (get_legal_moves game (Some player0)) (Some 0%Z)
  end.

(** ** Further notions used by the properties *)

Section Consumption.

Context {board : Type} `{Board board}.

(** Every legal move of either player, once forecast, leaves fewer blank
    cells: what bounds the recursion of [longestPath]. *)
Definition consuming : Prop :=
  forall (game : board) (p : player) (m : move),
    In m (get_legal_moves game (Some p)) ->
    (length (get_blank_spaces (forecast_move game m))
     < length (get_blank_spaces game))%nat.

End Consumption.

Section Outcomes.

Context {board : Type}.
Variable self : IsolationPlayer board.
Variable time_left : nat -> Q.

(** The computation ends by returning or by raising [SearchTimeout]: it
    neither runs out of fuel nor raises [ValueError]. *)
Definition settles {A : Type} (c : M board A) : Prop :=
  forall w, fst (c w) <> OutOfFuel /\ fst (c w) <> Raised ValueError.

(** Whatever the computation returns satisfies [S]. *)
Definition lands_in {A : Type} (S : A -> Prop) (c : M board A) : Prop :=
  forall w a, fst (c w) = Returned a -> S a.

(** A reading below the threshold is the last reading the computation
    takes. *)
Definition stops_when_low {A : Type} (c : M board A) : Prop :=
  forall w k,
    (clock w <= k < clock (snd (c w)))%nat ->
    (time_left k < TIMER_THRESHOLD self)%Q ->
    clock (snd (c w)) = S k.

End Outcomes.

(** [moves] splits around [r], the first element of greatest value: the
    elements before it are strictly below, those after it not above. *)
Definition first_best (value : move -> pyfloat) (moves : list move) (r : move)
  : Prop :=
  exists before after,
    moves = before ++ r :: after
    /\ (forall m, In m before -> pf_lt (value m) (value r))
    /\ (forall m, In m after -> pf_le (value m) (value r)).

(** * Properties *)

(** ** Facts about the order on floats *)

Module Pyfloat_as_OT <: OrderedTypeFull.

Definition t := pyfloat.
Definition eq := pf_eq.
Definition lt := pf_lt.
Definition le := pf_le.
Definition compare := pyfloat_compare.

Lemma compare_antisym (x y : pyfloat) :
  pyfloat_compare y x = CompOpp (pyfloat_compare x y).
Proof.
  destruct x, y; simpl; try reflexivity.
  symmetry. apply Qcompare_antisym.
Qed.

#[global]
Instance eq_equiv : Equivalence eq.
Proof.
  unfold eq, pf_eq. split.
  - intros [ | a | ]; simpl; trivial. now apply Qeq_alt.
  - intros x y E. now rewrite compare_antisym, E.
  - intros [ | a | ] [ | b | ] [ | c | ]; simpl; try discriminate; trivial.
    rewrite <- !Qeq_alt. apply Qeq_trans.
Qed.

#[global]
Instance lt_strorder : StrictOrder lt.
Proof.
  unfold lt, pf_lt. split.
  - intros [ | a | ]; unfold complement; simpl; try discriminate.
    rewrite <- Qlt_alt. apply Qlt_irrefl.
  - intros [ | a | ] [ | b | ] [ | c | ]; simpl; try discriminate; trivial.
    rewrite <- !Qlt_alt. apply Qlt_trans.
Qed.

#[global]
Instance lt_compat : Proper (eq ==> eq ==> iff) lt.
Proof.
  unfold eq, lt, pf_eq, pf_lt.
  intros [ | a | ] [ | a' | ] Ea [ | b | ] [ | b' | ] Eb; simpl in *;
    try discriminate; try tauto.
  apply Qeq_alt in Ea, Eb. rewrite <- !Qlt_alt. now rewrite Ea, Eb.
Qed.

Lemma le_lteq (x y : pyfloat) : le x y <-> lt x y \/ eq x y.
Proof.
  unfold le, lt, eq, pf_le, pf_lt, pf_eq. destruct (pyfloat_compare x y); intuition discriminate.
Qed.

Lemma compare_spec (x y : pyfloat) :
  CompareSpec (eq x y) (lt x y) (lt y x) (pyfloat_compare x y).
Proof.
  unfold eq, lt, pf_eq, pf_lt. rewrite (compare_antisym x y).
  destruct (pyfloat_compare x y); constructor; reflexivity.
Qed.

Definition eq_dec (x y : pyfloat) : {eq x y} + {~ eq x y}.
Proof.
  unfold eq, pf_eq. destruct (pyfloat_compare x y); (now left) || (right; discriminate).
Defined.

End Pyfloat_as_OT.

Module PyfloatOrder := OTF_to_OrderTac Pyfloat_as_OT.

Declare Scope pyfloat_scope.
Delimit Scope pyfloat_scope with pf.
Infix "==" := pf_eq (at level 70, no associativity) : pyfloat_scope.
Infix "<" := pf_lt : pyfloat_scope.
Infix "<=" := pf_le : pyfloat_scope.

Ltac pf_order := PyfloatOrder.order.

Section FloatFacts.
Local Open Scope pyfloat_scope.

Lemma ltb_spec (x y : pyfloat) : BoolSpec (x < y) (y <= x) (ltb x y).
Proof.
  unfold ltb. destruct (Pyfloat_as_OT.compare_spec x y) as [E | L | G];
    constructor; trivial; pf_order.
Qed.

Lemma leb_spec (x y : pyfloat) : BoolSpec (x <= y) (y < x) (leb x y).
Proof.
  unfold leb. destruct (Pyfloat_as_OT.compare_spec x y) as [E | L | G];
    constructor; trivial; pf_order.
Qed.

Lemma py_min_spec (v x : pyfloat) :
  (x < v /\ py_min v x = x) \/ (v <= x /\ py_min v x = v).
Proof. unfold py_min. destruct (ltb_spec x v); auto. Qed.

Lemma py_max_spec (v x : pyfloat) :
  (v < x /\ py_max v x = x) \/ (x <= v /\ py_max v x = v).
Proof. unfold py_max. destruct (ltb_spec v x); auto. Qed.

Lemma neg_inf_least (x : pyfloat) : neg_inf <= x.
Proof. destruct x; discriminate. Qed.

Lemma pos_inf_greatest (x : pyfloat) : x <= pos_inf.
Proof. destruct x; discriminate. Qed.

Lemma eq_neg_inf (x : pyfloat) : x == neg_inf -> x = neg_inf.
Proof. destruct x; trivial; discriminate. Qed.

Lemma eq_pos_inf (x : pyfloat) : x == pos_inf -> x = pos_inf.
Proof. destruct x; trivial; discriminate. Qed.

End FloatFacts.

(** ** Reading the clock *)

Lemma Qltb_lt (x y : Q) : Qltb x y = true <-> (x < y)%Q.
Proof.
  unfold Qltb. rewrite negb_true_iff, <- not_true_iff_false, Qle_bool_iff.
  split; [apply Qnot_le_lt | apply Qlt_not_le].
Qed.

Lemma Qltb_ge (x y : Q) : Qltb x y = false <-> ~ (x < y)%Q.
Proof. rewrite <- Qltb_lt. symmetry. apply not_true_iff_false. Qed.

Section ClockFacts.

Context {board : Type} `{Board board}.
Variable self : IsolationPlayer board.
Variable time_left : nat -> Q.

Lemma check_time_expired (w : world board) :
  expired self time_left w -> check_time self time_left w = (Raised SearchTimeout, tick w).
Proof.
  unfold expired, check_time, bind, call_time_left. intros E.
  apply Qltb_lt in E. now rewrite E.
Qed.

Lemma check_time_passes (w : world board) :
  ~ expired self time_left w -> check_time self time_left w = (Returned tt, tick w).
Proof.
  unfold expired, check_time, bind, call_time_left. intros E.
  apply Qltb_ge in E. now rewrite E.
Qed.

Lemma check_time_cases (w : world board) :
  (expired self time_left w /\ check_time self time_left w = (Raised SearchTimeout, tick w))
  \/ (~ expired self time_left w /\ check_time self time_left w = (Returned tt, tick w)).
Proof.
  destruct (Qlt_le_dec (time_left (clock w)) (TIMER_THRESHOLD self)) as [L | G].
  - left. split; [exact L | now apply check_time_expired].
  - right. assert (N : ~ expired self time_left w) by (now apply Qle_not_lt).
    split; [exact N | now apply check_time_passes].
Qed.

End ClockFacts.

(** ** Boards without moves, and an expired clock *)

Section Fallbacks.

Context {board : Type} `{Board board}.
Variable self : IsolationPlayer board.
Variable time_left : nat -> Q.

(** C8.  On a board where the player to move has no legal move, both
    [MinimaxPlayer.get_move] and [AlphaBetaPlayer.get_move] return
    [(-1, -1)] and leave the world as it was: the clock has not been read,
    so no [min_value] or [max_value] frame was entered, and the evaluation
    function has not been called. *)
Theorem get_move_without_moves (fuel : nat) (game : board) (w : world board) :
  get_legal_moves game None = [] ->
  MinimaxPlayer.get_move self time_left fuel game w = (Returned no_move, w)
  /\ AlphaBetaPlayer.get_move self time_left fuel game w = (Returned no_move, w).
Proof.
  intros E. unfold MinimaxPlayer.get_move, AlphaBetaPlayer.get_move.
  rewrite E. split; reflexivity.
Qed.

(** C7.  When the first reading of the clock is below the threshold, both
    [get_move] methods return the first element of the list of legal
    moves. *)
Theorem get_move_expired_at_once (fuel : nat) (game : board) (w : world board)
  (first : move) :
  hd_error (get_legal_moves game None) = Some first ->
  expired self time_left w ->
  (0 < fuel)%nat ->
  fst (MinimaxPlayer.get_move self time_left fuel game w) = Returned first
  /\ fst (AlphaBetaPlayer.get_move self time_left fuel game w) = Returned first.
Proof.
  intros Hfirst Hexp Hfuel.
  destruct fuel as [ | fuel']; [inversion Hfuel | ].
  unfold MinimaxPlayer.get_move, AlphaBetaPlayer.get_move.
  destruct (get_legal_moves game None) as [ | m rest] eqn:Moves;
    [discriminate | ].
  injection Hfirst as ->. split.
  - unfold try_except, MinimaxPlayer.minimax, MinimaxPlayer.max_by_key.
    rewrite Moves. unfold bind at 1. simpl MinimaxPlayer.min_value.
    unfold bind at 1. now rewrite (check_time_expired Hexp).
  - simpl. unfold bind, call_time_left.
    assert (E : Qltb (TIMER_THRESHOLD self) (time_left (clock w)) = false).
    { apply Qltb_ge. unfold expired in Hexp. intros L.
      exact (Qlt_irrefl _ (Qlt_trans _ _ _ Hexp L)). }
    now rewrite E.
Qed.

End Fallbacks.

(** ** Lost and won positions *)

Section TerminalScores.

Context {board : Type} `{Board board}.

(** C9.  Each of the three evaluation functions returns minus infinity for
    a player who has lost and plus infinity for a player who has won, the
    test for a loss being the first and the test for a win the second: the
    answer does not depend on the fuel of the path exploration and is given
    even when a player has no location yet. *)
Theorem terminal_positions_score (fuel : nat) (game : board) (p : player) :
  (is_loser game p = true ->
   custom_score fuel game p = Some neg_inf
   /\ custom_score_2 game p = neg_inf
   /\ custom_score_3 game p = Some neg_inf)
  /\ (is_loser game p = false -> is_winner game p = true ->
      custom_score fuel game p = Some pos_inf
      /\ custom_score_2 game p = pos_inf
      /\ custom_score_3 game p = Some pos_inf).
Proof.
  unfold custom_score, custom_score_2, custom_score_3. split.
  - intros ->. auto.
  - intros -> ->. auto.
Qed.

End TerminalScores.

(** ** Properties kept by every step of a computation *)

Section Preservation.

Context {board : Type}.
Variable P : world board -> Prop.

Lemma preserves_ret {A : Type} (a : A) : preserves P (ret a).
Proof. intros w Pw. exact Pw. Qed.

Lemma preserves_raise {A : Type} (e : exn) : preserves P (@raise board A e).
Proof. intros w Pw. exact Pw. Qed.

Lemma preserves_out_of_fuel {A : Type} : preserves P (@out_of_fuel board A).
Proof. intros w Pw. exact Pw. Qed.

Lemma preserves_bind {A B : Type} (c : M board A) (k : A -> M board B) :
  preserves P c -> (forall a, preserves P (k a)) -> preserves P (bind c k).
Proof.
  intros Hc Hk w Pw. unfold bind. specialize (Hc w Pw).
  destruct (c w) as [[a | e | ] w']; simpl in *; trivial.
  now apply Hk.
Qed.

Lemma preserves_try_except {A B : Type} (body : M board A)
  (rest : A -> M board B) (handler : M board B) :
  preserves P body -> (forall a, preserves P (rest a)) -> preserves P handler ->
  preserves P (try_except body rest handler).
Proof.
  intros Hb Hr Hh w Pw. unfold try_except. specialize (Hb w Pw).
  destruct (body w) as [[a | [ | ] | ] w']; simpl in *; trivial.
  - now apply Hr.
  - now apply Hh.
Qed.

End Preservation.

(** ** Where the evaluation function is called *)

Section ScoreCalls.

Context {board : Type} `{Board board}.
Variable self : IsolationPlayer board.
Variable time_left : nat -> Q.

Lemma check_time_scored (depth : nat) :
  preserves (scored_at depth) (check_time self time_left).
Proof.
  intros w Pw. destruct (check_time_cases self time_left w) as [[_ E] | [_ E]];
    rewrite E; exact Pw.
Qed.

Lemma call_score_scored (depth : nat) (game : board) :
  preserves (scored_at depth) (call_score self game depth).
Proof. intros w Pw. unfold scored_at in *. simpl. now constructor. Qed.

Lemma minimax_min_loop_scored (depth : nat) (child : board -> M board pyfloat)
  (game : board) :
  (forall g, preserves (scored_at depth) (child g)) ->
  forall moves v,
    preserves (scored_at depth) (MinimaxPlayer.min_loop self time_left child game v moves).
Proof.
  intros Hchild. induction moves as [ | m rest IH]; intros v; simpl.
  - apply preserves_ret.
  - apply preserves_bind; [apply check_time_scored | intros _].
    apply preserves_bind; [apply Hchild | intros x; apply IH].
Qed.

Lemma minimax_max_loop_scored (depth : nat) (child : board -> M board pyfloat)
  (game : board) :
  (forall g, preserves (scored_at depth) (child g)) ->
  forall moves v,
    preserves (scored_at depth) (MinimaxPlayer.max_loop self time_left child game v moves).
Proof.
  intros Hchild. induction moves as [ | m rest IH]; intros v; simpl.
  - apply preserves_ret.
  - apply preserves_bind; [apply check_time_scored | intros _].
    apply preserves_bind; [apply Hchild | intros x; apply IH].
Qed.

Lemma minimax_values_scored (depth fuel : nat) :
  forall game td,
    preserves (scored_at depth) (MinimaxPlayer.min_value self time_left depth fuel game td)
    /\ preserves (scored_at depth) (MinimaxPlayer.max_value self time_left depth fuel game td).
Proof.
  induction fuel as [ | fuel' IH]; intros game td; simpl.
  - split; apply preserves_out_of_fuel.
  - split; (apply preserves_bind; [apply check_time_scored | intros _]);
      destruct (Nat.eqb_spec td depth) as [-> | Ne];
      try apply call_score_scored.
    + apply minimax_min_loop_scored. intros g. apply IH.
    + apply minimax_max_loop_scored. intros g. apply IH.
Qed.

(** C10.  In [MinimaxPlayer.minimax], a node met before the cutoff that has
    no legal move makes [min_value] return plus infinity and [max_value]
    return minus infinity, the values their loops start from, without a call
    of the evaluation function (only the clock advances); whatever the node,
    every call of the evaluation function made by [min_value] and
    [max_value] comes from a frame with [traversed_depth == depth].  In
    [AlphaBetaPlayer.alphabeta] the same node, at a depth above zero, is
    evaluated: both functions call the evaluation function and return its
    value. *)
Theorem minimax_dead_end_not_scored (depth fuel : nat) (game : board)
  (traversed_depth : nat) (w : world board) :
  get_legal_moves game None = [] ->
  traversed_depth <> depth ->
  ~ expired self time_left w ->
  (MinimaxPlayer.min_value self time_left depth (S fuel) game traversed_depth w
   = (Returned pos_inf, tick w)
   /\ MinimaxPlayer.max_value self time_left depth (S fuel) game traversed_depth w
      = (Returned neg_inf, tick w))
  /\ (forall fuel' game' td' w',
        scored_at depth w' ->
        scored_at depth
          (snd (MinimaxPlayer.min_value self time_left depth fuel' game' td' w'))
        /\ scored_at depth
             (snd (MinimaxPlayer.max_value self time_left depth fuel' game' td' w')))
  /\ (forall depth_1 alpha beta,
        AlphaBetaPlayer.min_value self time_left game (S depth_1) alpha beta w
        = (Returned (score self game (identity self)),
           record_score game (S depth_1) (tick w))
        /\ AlphaBetaPlayer.max_value self time_left game (S depth_1) alpha beta w
           = (Returned (score self game (identity self)),
              record_score game (S depth_1) (tick w))).
Proof.
  intros Moves Ne Time. apply Nat.eqb_neq in Ne. repeat split.
  - simpl. unfold bind. now rewrite (check_time_passes Time), Ne, Moves.
  - simpl. unfold bind. now rewrite (check_time_passes Time), Ne, Moves.
  - now apply minimax_values_scored.
  - now apply minimax_values_scored.
  - simpl. unfold bind. now rewrite (check_time_passes Time), Moves.
  - simpl. unfold bind. now rewrite (check_time_passes Time), Moves.
Qed.

End ScoreCalls.

(** ** Timeouts unwind the whole search *)

Section Unwinding.

Context {board : Type} `{Board board}.
Variable self : IsolationPlayer board.
Variable time_left : nat -> Q.


Lemma no_reading_no_expiry (w w' : world board) :
  (clock w' <= clock w)%nat -> ~ expired_between self time_left w w'.
Proof. intros L [k [R _]]. lia. Qed.

Lemma unwinds_ret {A : Type} (a : A) : unwinds self time_left (ret a).
Proof.
  intros w. simpl. split; [lia | ].
  intros E. now apply no_reading_no_expiry in E.
Qed.


Lemma unwinds_out_of_fuel {A : Type} : unwinds self time_left (@out_of_fuel board A).
Proof.
  intros w. simpl. split; [lia | ].
  intros E. now apply no_reading_no_expiry in E.
Qed.

Lemma unwinds_call_score (game : board) (depth : nat) :
  unwinds self time_left (call_score self game depth).
Proof.
  intros w. simpl. split; [lia | ].
  intros E. now apply no_reading_no_expiry in E.
Qed.

Lemma unwinds_check_time : unwinds self time_left (check_time self time_left).
Proof.
  intros w.
  destruct (check_time_cases self time_left w) as [[E R] | [E R]];
    rewrite R; simpl; (split; [lia | ]).
  - reflexivity.
  - intros [k [Rk Bk]]. simpl in Rk. assert (k = clock w) by lia.
    subst k. contradiction.
Qed.

Lemma unwinds_bind {A B : Type} (c : M board A) (k : A -> M board B) :
  unwinds self time_left c -> (forall a, unwinds self time_left (k a)) -> unwinds self time_left (bind c k).
Proof.
  intros Hc Hk w. unfold bind. destruct (Hc w) as [Mono Exp].
  destruct (c w) as [[a | e | ] w1]; simpl in *.
  - destruct (Hk a w1) as [Mono' Exp']. split; [lia | ].
    intros [j [Rj Bj]].
    destruct (Nat.lt_ge_cases j (clock w1)) as [Early | Late].
    + assert (X : expired_between self time_left w w1)
        by (exists j; split; [lia | exact Bj]).
      apply Exp in X. discriminate.
    + apply Exp'. exists j. split; [lia | exact Bj].
  - split; [exact Mono | ]. intros X. apply Exp in X. now injection X as ->.
  - split; [exact Mono | ]. intros X. apply Exp in X. discriminate.
Qed.

Lemma minimax_min_loop_unwinds (child : board -> M board pyfloat) (game : board) :
  (forall g, unwinds self time_left (child g)) ->
  forall moves v, unwinds self time_left (MinimaxPlayer.min_loop self time_left child game v moves).
Proof.
  intros Hchild. induction moves as [ | m rest IH]; intros v; simpl.
  - apply unwinds_ret.
  - apply unwinds_bind; [apply unwinds_check_time | intros _].
    apply unwinds_bind; [apply Hchild | intros x; apply IH].
Qed.

Lemma minimax_max_loop_unwinds (child : board -> M board pyfloat) (game : board) :
  (forall g, unwinds self time_left (child g)) ->
  forall moves v, unwinds self time_left (MinimaxPlayer.max_loop self time_left child game v moves).
Proof.
  intros Hchild. induction moves as [ | m rest IH]; intros v; simpl.
  - apply unwinds_ret.
  - apply unwinds_bind; [apply unwinds_check_time | intros _].
    apply unwinds_bind; [apply Hchild | intros x; apply IH].
Qed.

Lemma minimax_values_unwind (depth fuel : nat) :
  forall game td,
    unwinds self time_left (MinimaxPlayer.min_value self time_left depth fuel game td)
    /\ unwinds self time_left (MinimaxPlayer.max_value self time_left depth fuel game td).
Proof.
  induction fuel as [ | fuel' IH]; intros game td; simpl.
  - split; apply unwinds_out_of_fuel.
  - split; (apply unwinds_bind; [apply unwinds_check_time | intros _]);
      destruct (td =? depth)%nat; try apply unwinds_call_score.
    + apply minimax_min_loop_unwinds. intros g. apply IH.
    + apply minimax_max_loop_unwinds. intros g. apply IH.
Qed.



Lemma alphabeta_min_loop_unwinds
  (child : board -> pyfloat -> pyfloat -> M board pyfloat) (game : board) :
  (forall g a b, unwinds self time_left (child g a b)) ->
  forall moves alpha beta v,
    unwinds self time_left (AlphaBetaPlayer.min_loop child game alpha beta v moves).
Proof.
  intros Hchild. induction moves as [ | m rest IH]; intros alpha beta v; simpl.
  - apply unwinds_ret.
  - apply unwinds_bind; [apply Hchild | intros x].
    destruct (leb (py_min v x) alpha); [apply unwinds_ret | apply IH].
Qed.

Lemma alphabeta_max_loop_unwinds
  (child : board -> pyfloat -> pyfloat -> M board pyfloat) (game : board) :
  (forall g a b, unwinds self time_left (child g a b)) ->
  forall moves alpha beta v,
    unwinds self time_left (AlphaBetaPlayer.max_loop child game alpha beta v moves).
Proof.
  intros Hchild. induction moves as [ | m rest IH]; intros alpha beta v; simpl.
  - apply unwinds_ret.
  - apply unwinds_bind; [apply Hchild | intros x].
    destruct (leb beta (py_max v x)); [apply unwinds_ret | apply IH].
Qed.

Lemma alphabeta_values_unwind (depth : nat) :
  forall game alpha beta,
    unwinds self time_left (AlphaBetaPlayer.min_value self time_left game depth alpha beta)
    /\ unwinds self time_left (AlphaBetaPlayer.max_value self time_left game depth alpha beta).
Proof.
  induction depth as [ | depth_1 IH]; intros game alpha beta; simpl.
  - split; (apply unwinds_bind; [apply unwinds_check_time | intros _]);
      apply unwinds_call_score.
  - split; (apply unwinds_bind; [apply unwinds_check_time | intros _]);
      destruct (is_empty (get_legal_moves game None));
      try apply unwinds_call_score.
    + apply alphabeta_min_loop_unwinds. intros g a b. apply IH.
    + apply alphabeta_max_loop_unwinds. intros g a b. apply IH.
Qed.

Lemma alphabeta_unwinds (game : board) (depth : nat) (alpha beta : pyfloat) :
  unwinds self time_left (AlphaBetaPlayer.alphabeta self time_left game depth alpha beta).
Proof.
  unfold AlphaBetaPlayer.alphabeta.
  generalize no_move as best_move, neg_inf as best_val. revert alpha.
  induction (get_legal_moves game None) as [ | m rest IH];
    intros alpha best_move best_val; simpl.
  - apply unwinds_ret.
  - apply unwinds_bind; [apply alphabeta_values_unwind | intros v]. apply IH.
Qed.


End Unwinding.

(** ** Iterative deepening keeps the last completed result *)

Section Deepening.

Context {board : Type} `{Board board}.
Variable self : IsolationPlayer board.
Variable time_left : nat -> Q.

Lemma deepening_interrupted (game : board) (n : nat) :
  forall fuel search_depth best_move w m_n w_n,
    completed_iterations self time_left n game search_depth best_move w
    = Some (m_n, w_n) ->
    (TIMER_THRESHOLD self < time_left (clock w_n))%Q ->
    fst (AlphaBetaPlayer.alphabeta self time_left game (search_depth + n)
           neg_inf pos_inf (tick w_n))
    = Raised SearchTimeout ->
    (n < fuel)%nat ->
    fst (AlphaBetaPlayer.deepening self time_left fuel game search_depth
           best_move w)
    = Returned m_n.
Proof.
  induction n as [ | n' IH]; intros fuel d best w m_n w_n Done Go Stop Fuel;
    (destruct fuel as [ | fuel']; [lia | ]); simpl in Done.
  - injection Done as -> ->. rewrite Nat.add_0_r in Stop.
    simpl. unfold bind, call_time_left. apply Qltb_lt in Go. rewrite Go.
    unfold try_except. fold (tick w_n).
    destruct (AlphaBetaPlayer.alphabeta self time_left game d neg_inf pos_inf
                (tick w_n)) as [r w'].
    simpl in Stop. now subst r.
  - simpl. unfold bind, call_time_left.
    destruct (Qltb (TIMER_THRESHOLD self) (time_left (clock w)));
      [ | discriminate].
    unfold try_except. fold (tick w).
    destruct (AlphaBetaPlayer.alphabeta self time_left game d neg_inf pos_inf
                (tick w)) as [[m | e | ] w']; try discriminate.
    apply (IH fuel' (d + 1)%nat m w' m_n w_n Done Go); [ | lia].
    now replace (d + 1 + n')%nat with (d + S n')%nat by lia.
Qed.

Lemma last_completed_iteration (game : board) (n : nat) :
  forall search_depth best_move w m_n w_n,
    completed_iterations self time_left (S n) game search_depth best_move w
    = Some (m_n, w_n) ->
    exists w',
      AlphaBetaPlayer.alphabeta self time_left game (search_depth + n)
        neg_inf pos_inf w'
      = (Returned m_n, w_n).
Proof.
  induction n as [ | n' IH]; intros d best w m_n w_n Done.
  - simpl in Done.
    destruct (Qltb (TIMER_THRESHOLD self) (time_left (clock w)));
      [ | discriminate].
    destruct (AlphaBetaPlayer.alphabeta self time_left game d neg_inf pos_inf
                (tick w)) as [[m | e | ] w'] eqn:Run; try discriminate.
    injection Done as -> ->. exists (tick w). now rewrite Nat.add_0_r.
  - change (completed_iterations self time_left (S (S n')) game d best w)
      with (if Qltb (TIMER_THRESHOLD self) (time_left (clock w)) then
              match
                AlphaBetaPlayer.alphabeta self time_left game d neg_inf
                  pos_inf (tick w)
              with
              | (Returned m, w') =>
                  completed_iterations self time_left (S n') game
                    (d + 1)%nat m w'
              | _ => None
              end
            else None) in Done.
    destruct (Qltb (TIMER_THRESHOLD self) (time_left (clock w)));
      [ | discriminate].
    destruct (AlphaBetaPlayer.alphabeta self time_left game d neg_inf pos_inf
                (tick w)) as [[m | e | ] w']; try discriminate.
    destruct (IH _ _ _ _ _ Done) as [w0 Run]. exists w0.
    now replace (d + S n')%nat with (d + 1 + n')%nat by lia.
Qed.

(** C3.  When the clock lets the iterations at depths 1 to [n] complete and
    the iteration at depth [n + 1] is entered and raises [SearchTimeout],
    [AlphaBetaPlayer.get_move] returns the move [m_n] that the search at
    depth [n] returned, whatever the interrupted search had examined. *)
Theorem get_move_returns_last_completed (game : board) (w : world board)
  (n fuel : nat) (first m_n : move) (w_n : world board) :
  hd_error (get_legal_moves game None) = Some first ->
  (1 <= n)%nat ->
  completed_iterations self time_left n game 1 first w = Some (m_n, w_n) ->
  (TIMER_THRESHOLD self < time_left (clock w_n))%Q ->
  fst (AlphaBetaPlayer.alphabeta self time_left game (n + 1)
         neg_inf pos_inf (tick w_n))
  = Raised SearchTimeout ->
  (n < fuel)%nat ->
  fst (AlphaBetaPlayer.get_move self time_left fuel game w) = Returned m_n
  /\ exists w',
       AlphaBetaPlayer.alphabeta self time_left game n neg_inf pos_inf w'
       = (Returned m_n, w_n).
Proof.
  intros First Pos Done Go Stop Fuel. split.
  - unfold AlphaBetaPlayer.get_move.
    destruct (get_legal_moves game None) as [ | m rest]; [discriminate | ].
    injection First as ->.
    eapply deepening_interrupted; [exact Done | exact Go | | exact Fuel].
    now rewrite Nat.add_comm.
  - destruct n as [ | n']; [lia | ].
    destruct (last_completed_iteration game n' 1 first w Done) as [w' Run].
    exists w'. exact Run.
Qed.

End Deepening.

(** ** The searches under an ample budget *)

Section AmpleRuns.

Context {board : Type} `{Board board}.
Variable self : IsolationPlayer board.
Variable time_left : nat -> Q.

Lemma ample_later (w w' : world board) :
  ample self time_left w -> (clock w <= clock w')%nat ->
  ample self time_left w'.
Proof. intros A L k Lk. apply A. lia. Qed.

Lemma ample_not_expired (w : world board) :
  ample self time_left w -> ~ expired self time_left w.
Proof. intros A. apply A. lia. Qed.

Lemma returns_ret {A : Type} (a : A) : returns self time_left (ret a) a.
Proof. intros w _. exists w. split; [reflexivity | lia]. Qed.

Lemma returns_bind {A B : Type} (c : M board A) (k : A -> M board B)
  (a : A) (b : B) :
  returns self time_left c a -> returns self time_left (k a) b ->
  returns self time_left (bind c k) b.
Proof.
  intros Hc Hk w Aw. destruct (Hc w Aw) as [w1 [R1 L1]].
  assert (Aw1 : ample self time_left w1) by (eapply ample_later; eassumption).
  destruct (Hk w1 Aw1) as [w2 [R2 L2]].
  exists w2. unfold bind. rewrite R1. split; [exact R2 | lia].
Qed.

Lemma returns_check_time : returns self time_left (check_time self time_left) tt.
Proof.
  intros w Aw. exists (tick w).
  rewrite (check_time_passes (ample_not_expired Aw)). simpl.
  split; [reflexivity | lia].
Qed.

Lemma returns_call_score (game : board) (depth : nat) :
  returns self time_left (call_score self game depth) (evaluate self game).
Proof.
  intros w _. exists (record_score game depth w). simpl.
  split; [reflexivity | lia].
Qed.

Lemma minimax_min_loop_returns (child : board -> M board pyfloat)
  (value : board -> pyfloat) (game : board) :
  (forall g, returns self time_left (child g) (value g)) ->
  forall moves v,
    returns self time_left
      (MinimaxPlayer.min_loop self time_left child game v moves)
      (fold_left (fun v m => py_min v (value (forecast_move game m))) moves v).
Proof.
  intros Hchild. induction moves as [ | m rest IH]; intros v; simpl.
  - apply returns_ret.
  - eapply returns_bind; [apply returns_check_time | ].
    eapply returns_bind; [apply Hchild | apply IH].
Qed.

Lemma minimax_max_loop_returns (child : board -> M board pyfloat)
  (value : board -> pyfloat) (game : board) :
  (forall g, returns self time_left (child g) (value g)) ->
  forall moves v,
    returns self time_left
      (MinimaxPlayer.max_loop self time_left child game v moves)
      (fold_left (fun v m => py_max v (value (forecast_move game m))) moves v).
Proof.
  intros Hchild. induction moves as [ | m rest IH]; intros v; simpl.
  - apply returns_ret.
  - eapply returns_bind; [apply returns_check_time | ].
    eapply returns_bind; [apply Hchild | apply IH].
Qed.

(** With fuel for the plies left, [min_value] and [max_value] return the
    minimax values. *)
Lemma minimax_values_return (depth : nat) :
  forall fuel game td,
    (td <= depth)%nat -> (depth - td < fuel)%nat ->
    returns self time_left
      (MinimaxPlayer.min_value self time_left depth fuel game td)
      (minimax_min self (depth - td) game)
    /\ returns self time_left
         (MinimaxPlayer.max_value self time_left depth fuel game td)
         (minimax_max self (depth - td) game).
Proof.
  induction fuel as [ | fuel' IH]; intros game td Le Fuel; [lia | ].
  simpl MinimaxPlayer.min_value. simpl MinimaxPlayer.max_value.
  destruct (Nat.eqb_spec td depth) as [-> | Ne].
  - rewrite Nat.sub_diag. simpl.
    split; (eapply returns_bind; [apply returns_check_time | ]);
      apply returns_call_score.
  - replace (depth - td)%nat with (S (depth - (td + 1)))%nat by lia. simpl.
    split; (eapply returns_bind; [apply returns_check_time | ]).
    + apply minimax_min_loop_returns with
        (value := minimax_max self (depth - (td + 1))).
      intros g. apply IH; lia.
    + apply minimax_max_loop_returns with
        (value := minimax_min self (depth - (td + 1))).
      intros g. apply IH; lia.
Qed.

Lemma max_scan_returns (key : move -> M board pyfloat) (value : move -> pyfloat) :
  (forall m, returns self time_left (key m) (value m)) ->
  forall items max_item max_key,
    returns self time_left (MinimaxPlayer.max_scan key max_item max_key items)
      (best_from value max_key max_item items).
Proof.
  intros Hkey. induction items as [ | item rest IH]; intros max_item max_key; simpl.
  - apply returns_ret.
  - eapply returns_bind; [apply Hkey | ].
    destruct (ltb max_key (value item)); apply IH.
Qed.

Lemma minimax_returns (fuel : nat) (game : board) (depth : nat)
  (m : move) (rest : list move) :
  (1 <= depth)%nat -> (depth <= fuel)%nat ->
  get_legal_moves game None = m :: rest ->
  returns self time_left (MinimaxPlayer.minimax self time_left fuel game depth)
    (best_from (backed_up_value self depth game)
       (backed_up_value self depth game m) m rest).
Proof.
  intros Pos Fuel Moves. unfold MinimaxPlayer.minimax, MinimaxPlayer.max_by_key.
  rewrite Moves.
  assert (Key : forall m',
             returns self time_left
               (MinimaxPlayer.min_value self time_left depth fuel
                  (forecast_move game m') 1)
               (backed_up_value self depth game m')).
  { intros m'. apply minimax_values_return; lia. }
  eapply returns_bind; [apply Key | ].
  now apply max_scan_returns.
Qed.

Lemma alphabeta_min_loop_returns
  (child : board -> pyfloat -> pyfloat -> M board pyfloat)
  (value : board -> pyfloat -> pyfloat -> pyfloat) (game : board) :
  (forall g a b, returns self time_left (child g a b) (value g a b)) ->
  forall moves alpha beta v,
    returns self time_left
      (AlphaBetaPlayer.min_loop child game alpha beta v moves)
      (pruned_min_loop value game alpha beta v moves).
Proof.
  intros Hchild. induction moves as [ | m rest IH]; intros alpha beta v; simpl.
  - apply returns_ret.
  - eapply returns_bind; [apply Hchild | ].
    destruct (leb (py_min v (value (forecast_move game m) alpha beta)) alpha);
      [apply returns_ret | apply IH].
Qed.

Lemma alphabeta_max_loop_returns
  (child : board -> pyfloat -> pyfloat -> M board pyfloat)
  (value : board -> pyfloat -> pyfloat -> pyfloat) (game : board) :
  (forall g a b, returns self time_left (child g a b) (value g a b)) ->
  forall moves alpha beta v,
    returns self time_left
      (AlphaBetaPlayer.max_loop child game alpha beta v moves)
      (pruned_max_loop value game alpha beta v moves).
Proof.
  intros Hchild. induction moves as [ | m rest IH]; intros alpha beta v; simpl.
  - apply returns_ret.
  - eapply returns_bind; [apply Hchild | ].
    destruct (leb beta (py_max v (value (forecast_move game m) alpha beta)));
      [apply returns_ret | apply IH].
Qed.

Lemma alphabeta_values_return (depth : nat) :
  forall game alpha beta,
    returns self time_left
      (AlphaBetaPlayer.min_value self time_left game depth alpha beta)
      (pruned_min self game depth alpha beta)
    /\ returns self time_left
         (AlphaBetaPlayer.max_value self time_left game depth alpha beta)
         (pruned_max self game depth alpha beta).
Proof.
  induction depth as [ | d IH]; intros game alpha beta; simpl.
  - split; (eapply returns_bind; [apply returns_check_time | ]);
      apply returns_call_score.
  - split; (eapply returns_bind; [apply returns_check_time | ]);
      destruct (is_empty (get_legal_moves game None));
      try apply returns_call_score.
    + apply alphabeta_min_loop_returns with
        (value := fun g a b => pruned_max self g d a b).
      intros g a b. apply IH.
    + apply alphabeta_max_loop_returns with
        (value := fun g a b => pruned_min self g d a b).
      intros g a b. apply IH.
Qed.

Lemma alphabeta_returns (game : board) (depth : nat) (alpha beta : pyfloat) :
  returns self time_left
    (AlphaBetaPlayer.alphabeta self time_left game depth alpha beta)
    (pruned_root self game depth alpha beta neg_inf no_move
       (get_legal_moves game None)).
Proof.
  unfold AlphaBetaPlayer.alphabeta.
  generalize no_move as best_move, neg_inf as best_val. revert alpha.
  induction (get_legal_moves game None) as [ | m rest IH];
    intros alpha best_move best_val; simpl.
  - apply returns_ret.
  - eapply returns_bind; [apply alphabeta_values_return | apply IH].
Qed.

End AmpleRuns.

(** ** Pruning does not change the value *)

Lemma pf_le_gt_cases (x y : pyfloat) : pf_le x y \/ pf_lt y x.
Proof. destruct (leb_spec x y); auto. Qed.

(** Case analysis on every [py_min] and [py_max] in sight, then on the
    premises of the implications at hand; what is left is about the order
    alone. *)
Ltac pf_min_max :=
  repeat match goal with
    | |- context [py_min ?a ?b] =>
        let x := fresh "x" in
        let Ex := fresh "Ex" in
        let L := fresh "L" in
        let E := fresh "E" in
        remember (py_min a b) as x eqn:Ex in *;
        destruct (py_min_spec a b) as [[L E] | [L E]];
        rewrite E in Ex; clear E; subst x
    | H : context [py_min ?a ?b] |- _ =>
        let x := fresh "x" in
        let Ex := fresh "Ex" in
        let L := fresh "L" in
        let E := fresh "E" in
        remember (py_min a b) as x eqn:Ex in *;
        destruct (py_min_spec a b) as [[L E] | [L E]];
        rewrite E in Ex; clear E; subst x
    | |- context [py_max ?a ?b] =>
        let x := fresh "x" in
        let Ex := fresh "Ex" in
        let L := fresh "L" in
        let E := fresh "E" in
        remember (py_max a b) as x eqn:Ex in *;
        destruct (py_max_spec a b) as [[L E] | [L E]];
        rewrite E in Ex; clear E; subst x
    | H : context [py_max ?a ?b] |- _ =>
        let x := fresh "x" in
        let Ex := fresh "Ex" in
        let L := fresh "L" in
        let E := fresh "E" in
        remember (py_max a b) as x eqn:Ex in *;
        destruct (py_max_spec a b) as [[L E] | [L E]];
        rewrite E in Ex; clear E; subst x
    end.

Ltac pf_premises :=
  repeat match goal with
    | H : _ /\ _ |- _ => destruct H
    | H : pf_le ?x ?y -> _ |- _ =>
        let L := fresh "L" in
        destruct (pf_le_gt_cases x y) as [L | L];
        [specialize (H L) | clear H]
    | H : pf_lt ?x ?y -> _ |- _ =>
        let L := fresh "L" in
        destruct (pf_le_gt_cases y x) as [L | L];
        [clear H | specialize (H L)]
    end.

Ltac pf_solve :=
  unfold brackets, tracks_below, tracks_above in *;
  pf_min_max; pf_premises; repeat split; intros; pf_order.

Section Pruning.

Context {board : Type} `{Board board}.
Variable self : IsolationPlayer board.

Local Open Scope pyfloat_scope.

Lemma fold_min_le (f : move -> pyfloat) (moves : list move) :
  forall v, fold_left (fun v m => py_min v (f m)) moves v <= v.
Proof.
  induction moves as [ | m rest IH]; intros v; simpl.
  - pf_order.
  - specialize (IH (py_min v (f m))). revert IH.
    generalize (fold_left (fun v m => py_min v (f m)) rest (py_min v (f m))).
    intros T IH. pf_solve.
Qed.

Lemma fold_max_ge (f : move -> pyfloat) (moves : list move) :
  forall v, v <= fold_left (fun v m => py_max v (f m)) moves v.
Proof.
  induction moves as [ | m rest IH]; intros v; simpl.
  - pf_order.
  - specialize (IH (py_max v (f m))). revert IH.
    generalize (fold_left (fun v m => py_max v (f m)) rest (py_max v (f m))).
    intros T IH. pf_solve.
Qed.

(** The loop of the minimizing layer, entered with a running value above
    [alpha], a [beta'] lowered to it, and a running value that tracks the
    true one. *)
Lemma pruned_min_loop_brackets
  (child : board -> pyfloat -> pyfloat -> pyfloat) (value : board -> pyfloat)
  (game : board) (alpha beta : pyfloat) :
  alpha < beta ->
  (forall g a b, a < b -> brackets a b (child g a b) (value g)) ->
  forall moves v tv beta',
    alpha < v ->
    beta' == py_min beta v ->
    tracks_below beta v tv ->
    brackets alpha beta
      (pruned_min_loop child game alpha beta' v moves)
      (fold_left (fun v m => py_min v (value (forecast_move game m))) moves tv).
Proof.
  intros Window Hchild. induction moves as [ | m rest IH];
    intros v tv beta' Above Eb Track; simpl.
  - pf_solve.
  - assert (Window' : alpha < beta') by pf_solve.
    specialize (Hchild (forecast_move game m) alpha beta' Window').
    set (r := child (forecast_move game m) alpha beta') in *.
    set (t := value (forecast_move game m)) in *.
    destruct (leb_spec (py_min v r) alpha) as [Cut | Go].
    + pose proof (fold_min_le (fun m => value (forecast_move game m)) rest
                    (py_min tv t)) as Le.
      simpl in Le. revert Le.
      generalize (fold_left
                    (fun v0 m0 => py_min v0 (value (forecast_move game m0)))
                    rest (py_min tv t)).
      intros T Le. clearbody r t. clear IH. pf_solve.
    + apply IH; clearbody r t; clear IH; pf_solve.
Qed.

Lemma pruned_max_loop_brackets
  (child : board -> pyfloat -> pyfloat -> pyfloat) (value : board -> pyfloat)
  (game : board) (alpha beta : pyfloat) :
  alpha < beta ->
  (forall g a b, a < b -> brackets a b (child g a b) (value g)) ->
  forall moves v tv alpha',
    v < beta ->
    alpha' == py_max alpha v ->
    tracks_above alpha v tv ->
    brackets alpha beta
      (pruned_max_loop child game alpha' beta v moves)
      (fold_left (fun v m => py_max v (value (forecast_move game m))) moves tv).
Proof.
  intros Window Hchild. induction moves as [ | m rest IH];
    intros v tv alpha' Below Ea Track; simpl.
  - pf_solve.
  - assert (Window' : alpha' < beta) by pf_solve.
    specialize (Hchild (forecast_move game m) alpha' beta Window').
    set (r := child (forecast_move game m) alpha' beta) in *.
    set (t := value (forecast_move game m)) in *.
    destruct (leb_spec beta (py_max v r)) as [Cut | Go].
    + pose proof (fold_max_ge (fun m => value (forecast_move game m)) rest
                    (py_max tv t)) as Ge.
      simpl in Ge. revert Ge.
      generalize (fold_left
                    (fun v0 m0 => py_max v0 (value (forecast_move game m0)))
                    rest (py_max tv t)).
      intros T Ge. clearbody r t. clear IH. pf_solve.
    + apply IH; clearbody r t; clear IH; pf_solve.
Qed.

(** Alpha-beta pruning is sound: in a window that is not empty the pruned
    value stands for the exact one. *)
Lemma pruned_values_bracket (depth : nat) :
  forall game alpha beta,
    alpha < beta ->
    brackets alpha beta (pruned_min self game depth alpha beta)
      (exact_min self depth game)
    /\ brackets alpha beta (pruned_max self game depth alpha beta)
         (exact_max self depth game).
Proof.
  induction depth as [ | d IH]; intros game alpha beta Window; simpl.
  - split; pf_solve.
  - destruct (is_empty (get_legal_moves game None)); [split; pf_solve | ].
    pose proof (pos_inf_greatest beta) as Top.
    pose proof (neg_inf_least alpha) as Bottom.
    split.
    + apply pruned_min_loop_brackets; trivial.
      * intros g a b Wab. now apply IH.
      * pf_order.
      * pf_solve.
      * pf_solve.
    + apply pruned_max_loop_brackets; trivial.
      * intros g a b Wab. now apply IH.
      * pf_order.
      * pf_solve.
      * pf_solve.
Qed.

End Pruning.

(** ** The move chosen at the root *)

Section Roots.

Context {board : Type} `{Board board}.
Variable self : IsolationPlayer board.
Variable time_left : nat -> Q.

Local Open Scope pyfloat_scope.

Lemma ltb_true_lt (x y : pyfloat) : ltb x y = true -> x < y.
Proof. destruct (ltb_spec x y); [trivial | discriminate]. Qed.

Lemma ltb_false_le (x y : pyfloat) : ltb x y = false -> y <= x.
Proof. destruct (ltb_spec x y); [discriminate | trivial]. Qed.

(** Scans over values equal in the order make the same choices. *)
Lemma best_from_equivalent (value value' : move -> pyfloat) :
  forall moves best_val best_val' best_move,
    best_val == best_val' ->
    (forall m, In m moves -> value m == value' m) ->
    best_from value best_val best_move moves
    = best_from value' best_val' best_move moves.
Proof.
  induction moves as [ | m rest IH]; intros bv bv' bm Eb Ev; simpl;
    [reflexivity | ].
  pose proof (Ev m (or_introl eq_refl)) as Em.
  assert (E : ltb bv (value m) = ltb bv' (value' m)).
  { destruct (ltb_spec bv (value m)), (ltb_spec bv' (value' m));
      trivial; exfalso; pf_order. }
  rewrite E. destruct (ltb bv' (value' m)); apply IH; trivial;
    intros m' In'; apply Ev; now right.
Qed.

Lemma pruned_root_best_from (game : board) (depth : nat) :
  forall moves alpha best_val best_move,
    alpha == best_val ->
    pruned_root self game depth alpha pos_inf best_val best_move moves
    = best_from (fun m => exact_min self (depth - 1) (forecast_move game m))
        best_val best_move moves.
Proof.
  induction moves as [ | m rest IH]; intros alpha best_val best_move Ea; simpl;
    [reflexivity | ].
  set (r := pruned_min self (forecast_move game m) (depth - 1) alpha pos_inf).
  set (t := exact_min self (depth - 1) (forecast_move game m)).
  assert (Same : ltb best_val r = ltb best_val t
                 /\ (ltb best_val t = true -> r == t)).
  { pose proof (pos_inf_greatest r) as Top_r.
    pose proof (pos_inf_greatest t) as Top_t.
    destruct (pf_le_gt_cases pos_inf alpha) as [Full | Window].
    - destruct (ltb_spec best_val r), (ltb_spec best_val t);
        split; trivial; try congruence; intros; exfalso; pf_order.
    - destruct (pruned_values_bracket self (depth - 1) (forecast_move game m)
                  Window) as [Br _].
      fold r t in Br. clearbody r t.
      destruct (ltb_spec best_val r), (ltb_spec best_val t);
        split; trivial; try congruence; intros; pf_solve. }
  destruct Same as [Same Exact]. rewrite Same.
  destruct (ltb best_val t) eqn:Better.
  - specialize (Exact eq_refl). rewrite IH.
    + apply best_from_equivalent; [exact Exact | intros; pf_order].
    + clearbody r t. apply ltb_true_lt in Better. pf_solve.
  - apply ltb_false_le in Better. apply IH. clearbody r t. pf_solve.
Qed.


(** A move still to come beats the value held: the move held is never
    returned. *)
Lemma best_from_forgets (value : move -> pyfloat) :
  forall moves best_val best_move best_move',
    (exists m, In m moves /\ best_val < value m) ->
    best_from value best_val best_move moves
    = best_from value best_val best_move' moves.
Proof.
  induction moves as [ | m rest IH]; intros bv bm bm' [m' [In' Better]];
    [destruct In' | ]. simpl.
  destruct (ltb_spec bv (value m)) as [Lt | Ge]; [reflexivity | ].
  apply IH. exists m'. split; [ | exact Better].
  destruct In' as [-> | In']; [exfalso; pf_order | exact In'].
Qed.

Lemma best_from_in (value : move -> pyfloat) :
  forall moves best_val best_move,
    best_from value best_val best_move moves = best_move
    \/ In (best_from value best_val best_move moves) moves.
Proof.
  induction moves as [ | m rest IH]; intros bv bm; simpl; [now left | ].
  destruct (ltb bv (value m)).
  - destruct (IH (value m) m) as [-> | In']; right; [now left | now right].
  - destruct (IH bv bm) as [-> | In']; [now left | right; now right].
Qed.

Lemma fold_left_same {A : Type} (f g : A -> move -> A) :
  forall (moves : list move) (a : A),
    (forall x m, In m moves -> f x m = g x m) ->
    fold_left f moves a = fold_left g moves a.
Proof.
  induction moves as [ | m rest IH]; intros a Same; simpl; [reflexivity | ].
  rewrite Same by now left. apply IH. intros x m' In'. apply Same. now right.
Qed.

(** Where the evaluation function gives the nodes without moves the values
    of the empty loops, the exact alpha-beta values are the minimax
    values. *)
Lemma exact_is_minimax (plies : nat) :
  forall game,
    (dead_ends_min self plies game = true ->
     exact_min self plies game = minimax_min self plies game)
    /\ (dead_ends_max self plies game = true ->
        exact_max self plies game = minimax_max self plies game).
Proof.
  induction plies as [ | k IH]; intros game; simpl; [split; reflexivity | ].
  destruct (get_legal_moves game None) as [ | m rest] eqn:Moves; simpl.
  - split; intros Inf.
    + destruct (evaluate self game); trivial; discriminate.
    + destruct (evaluate self game); trivial; discriminate.
  - split; intros Ok; apply andb_true_iff in Ok; destruct Ok as [Ok_m Ok_rest];
      rewrite forallb_forall in Ok_rest.
    + rewrite (proj2 (IH (forecast_move game m)) Ok_m).
      apply fold_left_same. intros x m' In'.
      now rewrite (proj2 (IH (forecast_move game m')) (Ok_rest m' In')).
    + rewrite (proj1 (IH (forecast_move game m)) Ok_m).
      apply fold_left_same. intros x m' In'.
      now rewrite (proj1 (IH (forecast_move game m')) (Ok_rest m' In')).
Qed.

(** X14.  For a search depth of at least one, an ample budget, an
    evaluation function that gives every node without moves met before
    the cutoff the value of the empty minimax loop (plus infinity where the
    opponent is to move, minus infinity where the agent is), and a root
    with some move whose backed-up value is above minus infinity:
    [MinimaxPlayer.minimax] and [AlphaBetaPlayer.alphabeta] return the same
    move, a legal one, hence moves of identical backed-up minimax value. *)
Theorem minimax_alphabeta_same_move (fuel : nat) (game : board) (depth : nat)
  (w w' : world board) :
  (1 <= depth)%nat ->
  (depth <= fuel)%nat ->
  forallb (fun m => dead_ends_min self (depth - 1) (forecast_move game m))
    (get_legal_moves game None) = true ->
  (exists m, In m (get_legal_moves game None)
             /\ neg_inf < backed_up_value self depth game m) ->
  ample self time_left w ->
  ample self time_left w' ->
  same_backed_up_value self time_left fuel game depth w w'
  /\ exists m,
       In m (get_legal_moves game None)
       /\ fst (MinimaxPlayer.minimax self time_left fuel game depth w)
          = Returned m
       /\ fst (AlphaBetaPlayer.alphabeta self time_left game depth
                 neg_inf pos_inf w')
          = Returned m.
Proof.
  intros Pos Fuel Dead Some_move Aw Aw'.
  destruct (get_legal_moves game None) as [ | m0 rest] eqn:Moves.
  { destruct Some_move as [m [[] _]]. }
  destruct (minimax_returns game Pos Fuel Moves Aw)
    as [w1 [Run_mm _]].
  destruct (alphabeta_returns game depth neg_inf pos_inf Aw')
    as [w2 [Run_ab _]].
  rewrite Moves in Run_ab.
  rewrite pruned_root_best_from in Run_ab by reflexivity.
  rewrite forallb_forall in Dead.
  assert (Exact : best_from
                    (fun m => exact_min self (depth - 1) (forecast_move game m))
                    neg_inf no_move (m0 :: rest)
                  = best_from (backed_up_value self depth game)
                      neg_inf no_move (m0 :: rest)).
  { apply best_from_equivalent; [reflexivity | ].
    intros m In_m. unfold backed_up_value.
    rewrite (proj1 (exact_is_minimax (depth - 1) (forecast_move game m))
               (Dead m In_m)).
    reflexivity. }
  rewrite Exact in Run_ab.
  assert (Same : best_from (backed_up_value self depth game) neg_inf no_move
                   (m0 :: rest)
                 = best_from (backed_up_value self depth game)
                     (backed_up_value self depth game m0) m0 rest).
  { simpl. destruct (ltb_spec neg_inf (backed_up_value self depth game m0))
      as [Lt | Ge]; [reflexivity | ].
    assert (E0 : backed_up_value self depth game m0 = neg_inf).
    { apply eq_neg_inf. pose proof (neg_inf_least (backed_up_value self depth game m0)).
      pf_order. }
    rewrite E0. apply best_from_forgets.
    destruct Some_move as [m [[<- | In_m] Better]].
    - exfalso. pf_order.
    - exists m. split; trivial. }
  rewrite Same in Run_ab.
  set (chosen := best_from (backed_up_value self depth game)
                   (backed_up_value self depth game m0) m0 rest) in *.
  assert (Legal : In chosen (m0 :: rest)).
  { subst chosen.
    destruct (best_from_in (backed_up_value self depth game) rest
                (backed_up_value self depth game m0) m0) as [-> | In'];
      [now left | now right]. }
  split.
  - exists chosen, chosen. rewrite Run_mm, Run_ab. simpl.
    repeat split; reflexivity.
  - exists chosen. rewrite Run_mm, Run_ab. simpl. repeat split; trivial.
Qed.

End Roots.

(** ** A root where every move loses *)

Section AllLost.

Context {board : Type} `{Board board}.
Variable self : IsolationPlayer board.
Variable time_left : nat -> Q.

Lemma best_from_nothing_better (value : move -> pyfloat) :
  forall moves best_val best_move,
    (forall m, In m moves -> pf_le (value m) best_val) ->
    best_from value best_val best_move moves = best_move.
Proof.
  induction moves as [ | m rest IH]; intros bv bm Le; simpl; [reflexivity | ].
  destruct (ltb_spec bv (value m)) as [Lt | Ge].
  - exfalso. pose proof (Le m (or_introl eq_refl)). pf_order.
  - apply IH. intros m' In'. apply Le. now right.
Qed.

(** When every move at the root has the exact value minus infinity, the
    search returns its initial [best_move], [(-1, -1)], whatever the legal
    moves are. *)
Lemma alphabeta_all_lost (game : board) (depth : nat) (w : world board) :
  ample self time_left w ->
  (forall m, In m (get_legal_moves game None) ->
             exact_min self (depth - 1) (forecast_move game m) = neg_inf) ->
  fst (AlphaBetaPlayer.alphabeta self time_left game depth neg_inf pos_inf w)
  = Returned no_move.
Proof.
  intros Aw Lost.
  destruct (alphabeta_returns game depth neg_inf pos_inf Aw) as [w' [Run _]].
  rewrite Run. simpl. f_equal.
  rewrite pruned_root_best_from by reflexivity.
  apply best_from_nothing_better. intros m In_m. rewrite (Lost m In_m).
  apply neg_inf_least.
Qed.

End AllLost.

(** ** The agents on concrete games *)

(** On the concrete board a player cannot have both lost and won. *)
Lemma isolation_loser_not_winner (g : Isolation.Grid) (p : player) :
  is_loser g p = true -> is_winner g p = false.
Proof.
  simpl. unfold Isolation.loser, Isolation.winner, Isolation.inactive_player.
  destruct p, (Isolation.active_player g); simpl; trivial; discriminate.
Qed.

(** On the concrete board [custom_score_2], seen from [player_1], gives
    the nodes without moves the values of the empty minimax loops. *)
Lemma custom_score_2_dead_ends (plies : nat) :
  forall g : Isolation.Grid,
    (Isolation.active_player g = player_2 ->
     dead_ends_min (agent custom_score_2) plies g = true)
    /\ (Isolation.active_player g = player_1 ->
        dead_ends_max (agent custom_score_2) plies g = true).
Proof.
  induction plies as [ | k IH]; intros g; [split; reflexivity | ].
  cbn [dead_ends_min dead_ends_max].
  destruct (get_legal_moves g None) as [ | m rest] eqn:Moves.
  - change (get_legal_moves g None) with (Isolation.legal_moves g None) in Moves.
    unfold evaluate, custom_score_2. cbn [score agent identity].
    change (is_loser g player_1) with (Isolation.loser g player_1).
    change (is_winner g player_1) with (Isolation.winner g player_1).
    unfold Isolation.loser, Isolation.winner, Isolation.inactive_player.
    rewrite Moves.
    split; intros ->; reflexivity.
  - split; intros Turn; apply forallb_forall; intros m' _; apply IH;
      change (forecast_move g m') with (Isolation.apply_move g m');
      cbn [Isolation.apply_move Isolation.active_player];
      unfold Isolation.inactive_player; now rewrite Turn.
Qed.


(** C1.  On [endgame_3x3] the player to move has the legal move (2,1), and
    every reply to it leaves that player without a move.  With a clock that
    lets four iterations complete, [AlphaBetaPlayer.get_move] returns
    [(-1, -1)], which is not a legal move: at depth 2 every value at the
    root is minus infinity, never strictly above the initial [best_val], so
    [alphabeta] returns its initial [best_move].  [MinimaxPlayer.get_move]
    on the same input returns (2,1). *)
Theorem alphabeta_get_move_returns_no_move :
  get_legal_moves endgame_3x3 None = [(2, 1)%Z]
  /\ fst (AlphaBetaPlayer.get_move (agent custom_score_2) draining 100
            endgame_3x3 start)
     = Returned no_move
  /\ ~ In no_move (get_legal_moves endgame_3x3 None)
  /\ fst (AlphaBetaPlayer.alphabeta (agent custom_score_2) steady
            endgame_3x3 2 neg_inf pos_inf start)
     = Returned no_move
  /\ fst (MinimaxPlayer.get_move (agent custom_score_2) draining 100
            endgame_3x3 start)
     = Returned (2, 1)%Z.
Proof.
  split; [reflexivity | ].
  split; [vm_compute; reflexivity | ].
  split; [intros [E | []]; discriminate E | ].
  split; vm_compute; reflexivity.
Qed.

(** C4.  On [endgame_3x3], with [custom_score_2], a search depth of 2 and
    an ample budget, [minimax] returns the legal move (2,1), whose
    backed-up minimax value is minus infinity, while [alphabeta] at the same
    depth returns [(-1, -1)], which is no move of the position: the two
    searches do not select moves of identical backed-up value.  The
    evaluation function gives the nodes without moves the values of the
    empty minimax loops here, so the two searches value every node alike;
    the difference is the strict comparison at the root of [alphabeta],
    which never replaces the initial [best_move] when every value is minus
    infinity. *)
Theorem alphabeta_selects_no_move_where_minimax_does :
  fst (MinimaxPlayer.minimax (agent custom_score_2) steady 2 endgame_3x3 2
         start)
  = Returned (2, 1)%Z
  /\ In (2, 1)%Z (get_legal_moves endgame_3x3 None)
  /\ backed_up_value (agent custom_score_2) 2 endgame_3x3 (2, 1)%Z = neg_inf
  /\ fst (AlphaBetaPlayer.alphabeta (agent custom_score_2) steady
            endgame_3x3 2 neg_inf pos_inf start)
     = Returned no_move
  /\ ~ In no_move (get_legal_moves endgame_3x3 None)
  /\ forallb
       (fun m => dead_ends_min (agent custom_score_2) (2 - 1)
                   (forecast_move endgame_3x3 m))
       (get_legal_moves endgame_3x3 None)
     = true.
Proof.
  split; [vm_compute; reflexivity | ].
  split; [left; reflexivity | ].
  split; [vm_compute; reflexivity | ].
  split; [vm_compute; reflexivity | ].
  split; [intros [E | []]; discriminate E | ].
  vm_compute. reflexivity.
Qed.

Section LongestPath.

Context {board : Type} `{Board board}.

(** Whatever the recursive calls explore, [longestPath] returns the greater
    of the two numbers it was called with. *)
Lemma longestPath_returns_its_arguments (fuel : nat) (p : player)
  (game : board) (path longest r : Z) :
  longestPath fuel p game path longest = Some r ->
  r = Z.max path longest.
Proof.
  destruct fuel as [ | fuel']; simpl; [discriminate | ].
  destruct (for_each _ _); [ | discriminate].
  intros E. injection E as <-.
  destruct (Z.ltb_spec longest path); lia.
Qed.

(** Hence in the late game [custom_score] is zero whenever it returns. *)
Lemma custom_score_late_game_is_zero (fuel : nat) (game : board)
  (p : player) (r : pyfloat) :
  is_loser game p = false -> is_winner game p = false ->
  (len (get_blank_spaces game) < 15)%Z ->
  custom_score fuel game p = Some r ->
  r = fin (inject_Z 0).
Proof.
  intros NotLost NotWon Late. unfold custom_score.
  rewrite NotLost, NotWon. apply Z.ltb_lt in Late. rewrite Late.
  destruct (longestPath fuel p game 0 0) as [mine | ] eqn:Mine;
    [ | discriminate].
  destruct (longestPath fuel (get_opponent game p) game 0 0) as [theirs | ]
    eqn:Theirs; [ | discriminate].
  apply longestPath_returns_its_arguments in Mine, Theirs. subst.
  intros E. now injection E as <-.
Qed.

End LongestPath.

(** C2.  [open_3x3] is not finished for [player_1] and has 7 blank cells,
    fewer than 15.  The longest sequence of moves [player_1] can make is 7,
    round the cycle of outer cells; [player_2], on the middle cell, can
    make none: a difference of 7.  [custom_score] returns 0: [longestPath]
    does not use what its recursive calls return, so it returns the 0 it
    starts from. *)
Theorem custom_score_ignores_longest_paths :
  is_loser open_3x3 player_1 = false
  /\ is_winner open_3x3 player_1 = false
  /\ len (get_blank_spaces open_3x3) = 7%Z
  /\ own_longest_path 10 player_1 open_3x3 = Some 7%Z
  /\ own_longest_path 10 (get_opponent open_3x3 player_1) open_3x3
     = Some 0%Z
  /\ custom_score 10 open_3x3 player_1 = Some (fin (inject_Z 0)).
Proof. repeat split; vm_compute; reflexivity. Qed.

Section Centre.

Context {board : Type} `{Board board}.

(** On a board with an odd number of columns no cell is the [center] that
    [custom_score_3] computes: its first coordinate is not an integer. *)
Lemma no_cell_is_center (game : board) (cell : move) :
  Z.odd (width game) = true ->
  cell_is cell (inject_Z (width game) / 2, inject_Z (height game) / 2) = false.
Proof.
  intros Odd. unfold cell_is. simpl fst.
  destruct (Qeq_bool (inject_Z (fst cell)) (inject_Z (width game) / 2)) eqn:E;
    [ | reflexivity].
  exfalso. apply Qeq_bool_iff in E.
  assert (E2 : inject_Z (2 * fst cell) == inject_Z (width game)).
  { rewrite inject_Z_mult, E. field. }
  apply (proj1 (inject_Z_injective _ _)) in E2.
  rewrite <- E2, Z.odd_mul in Odd. discriminate.
Qed.

End Centre.

(** C5.  On [centre_7x7] the game is not finished for [player_1], who
    occupies (3,3), the middle cell of the 7 by 7 board; [custom_score_3]
    returns the finite value -4248, not plus infinity.  The [center] it
    compares the location with is (3.5, 3.5). *)
Theorem custom_score_3_misses_the_centre :
  width centre_7x7 = 7%Z /\ height centre_7x7 = 7%Z
  /\ is_loser centre_7x7 player_1 = false
  /\ is_winner centre_7x7 player_1 = false
  /\ get_player_location centre_7x7 player_1 = Some (3, 3)%Z
  /\ exists q, custom_score_3 centre_7x7 player_1 = Some (fin q)
               /\ q == - inject_Z 4248.
Proof.
  repeat split; try reflexivity.
  eexists. split; [vm_compute; reflexivity | reflexivity].
Qed.

(** An evaluation function without the tests for a finished game parts the
    two searches.  On [corridor_2x9], with the mobility difference alone, a
    search depth of 2 and an ample budget, [minimax] returns (1,6), whose
    backed-up minimax value is plus infinity, and [alphabeta] returns
    (1,2), whose backed-up minimax value is 1: after (1,6) the opponent has
    no move, which [minimax] values as plus infinity and [alphabeta] hands
    to the evaluation function. *)
Lemma careless_scores_break_equivalence :
  ~ same_backed_up_value (agent mobility) steady 5 corridor_2x9 2 start start.
Proof.
  intros [m_mm [m_ab [Run_mm [Run_ab Same]]]].
  vm_compute in Run_mm. vm_compute in Run_ab.
  injection Run_mm as <-. injection Run_ab as <-.
  vm_compute in Same. discriminate Same.
Qed.

(** ** The general statements on concrete games *)

Lemma steady_is_ample (score_fn : Isolation.Grid -> player -> pyfloat)
  (w : world Isolation.Grid) :
  ample (agent score_fn) steady w.
Proof. intros k _ Low. vm_compute in Low. discriminate Low. Qed.

Lemma get_move_without_moves_witness :
  get_legal_moves stuck_3x3 None = []
  /\ MinimaxPlayer.get_move (agent custom_score_2) steady 3 stuck_3x3 start
     = (Returned no_move, start)
  /\ AlphaBetaPlayer.get_move (agent custom_score_2) steady 3 stuck_3x3 start
     = (Returned no_move, start).
Proof.
  split; [reflexivity | ].
  apply get_move_without_moves. reflexivity.
Defined.

Lemma get_move_expired_at_once_witness :
  fst (MinimaxPlayer.get_move (agent custom_score_2) (cut_after 0) 1
         endgame_3x3 start)
  = Returned (2, 1)%Z
  /\ fst (AlphaBetaPlayer.get_move (agent custom_score_2) (cut_after 0) 1
            endgame_3x3 start)
     = Returned (2, 1)%Z.
Proof.
  apply get_move_expired_at_once.
  - reflexivity.
  - vm_compute. reflexivity.
  - lia.
Defined.

Lemma terminal_positions_score_witness :
  (custom_score 0 stuck_3x3 player_1 = Some neg_inf
   /\ custom_score_2 stuck_3x3 player_1 = neg_inf
   /\ custom_score_3 stuck_3x3 player_1 = Some neg_inf)
  /\ (custom_score 0 stuck_3x3 player_2 = Some pos_inf
      /\ custom_score_2 stuck_3x3 player_2 = pos_inf
      /\ custom_score_3 stuck_3x3 player_2 = Some pos_inf).
Proof.
  split.
  - apply (proj1 (terminal_positions_score 0 stuck_3x3 player_1)). reflexivity.
  - apply (proj2 (terminal_positions_score 0 stuck_3x3 player_2)); reflexivity.
Defined.

Lemma minimax_dead_end_not_scored_witness :
  get_legal_moves (forecast_move corridor_2x9 (1, 6)%Z) None = []
  /\ MinimaxPlayer.min_value (agent custom_score_2) steady 2 1
       (forecast_move corridor_2x9 (1, 6)%Z) 1 start
     = (Returned pos_inf, tick start)
  /\ AlphaBetaPlayer.min_value (agent custom_score_2) steady
       (forecast_move corridor_2x9 (1, 6)%Z) 1 neg_inf pos_inf start
     = (Returned
          (custom_score_2 (forecast_move corridor_2x9 (1, 6)%Z) player_1),
        record_score (forecast_move corridor_2x9 (1, 6)%Z) 1 (tick start)).
Proof.
  assert (Moves : get_legal_moves (forecast_move corridor_2x9 (1, 6)%Z) None = [])
    by reflexivity.
  assert (Interior : 1%nat <> 2%nat) by lia.
  assert (Time : ~ expired (agent custom_score_2) steady start)
    by (intros Low; vm_compute in Low; discriminate Low).
  destruct (@minimax_dead_end_not_scored _ _ (agent custom_score_2) steady 2 0
              (forecast_move corridor_2x9 (1, 6)%Z) 1 start
              Moves Interior Time)
    as [[Min _] [_ Scored]].
  split; [exact Moves | ].
  split; [exact Min | exact (proj1 (Scored 0%nat neg_inf pos_inf))].
Defined.


Lemma get_move_returns_last_completed_witness :
  fst (AlphaBetaPlayer.alphabeta (agent custom_score_2) (cut_after 3)
         endgame_3x3 1 neg_inf pos_inf (tick start))
  = Returned (2, 1)%Z
  /\ fst (AlphaBetaPlayer.alphabeta (agent custom_score_2) (cut_after 3)
            endgame_3x3 2 neg_inf pos_inf
            (tick (snd (AlphaBetaPlayer.alphabeta (agent custom_score_2)
                          (cut_after 3) endgame_3x3 1 neg_inf pos_inf
                          (tick start)))))
     = Raised SearchTimeout
  /\ fst (AlphaBetaPlayer.get_move (agent custom_score_2) (cut_after 3) 2
            endgame_3x3 start)
     = Returned (2, 1)%Z.
Proof.
  split; [vm_compute; reflexivity | ].
  split; [vm_compute; reflexivity | ].
  apply (@get_move_returns_last_completed _ _ (agent custom_score_2)
           (cut_after 3) endgame_3x3 start 1 2 (2, 1)%Z (2, 1)%Z
           (snd (AlphaBetaPlayer.alphabeta (agent custom_score_2)
                   (cut_after 3) endgame_3x3 1 neg_inf pos_inf (tick start)))).
  - reflexivity.
  - lia.
  - vm_compute. reflexivity.
  - vm_compute. reflexivity.
  - vm_compute. reflexivity.
  - lia.
Defined.

Lemma minimax_alphabeta_same_move_witness :
  same_backed_up_value (agent custom_score_2) steady 2 corridor_2x9 2
    start start
  /\ exists m,
       In m (get_legal_moves corridor_2x9 None)
       /\ fst (MinimaxPlayer.minimax (agent custom_score_2) steady 2
                 corridor_2x9 2 start)
          = Returned m
       /\ fst (AlphaBetaPlayer.alphabeta (agent custom_score_2) steady
                 corridor_2x9 2 neg_inf pos_inf start)
          = Returned m.
Proof.
  apply (@minimax_alphabeta_same_move _ _ (agent custom_score_2) steady 2
           corridor_2x9 2 start start).
  - lia.
  - lia.
  - vm_compute. reflexivity.
  - exists (1, 6)%Z. split; [right; left; reflexivity | vm_compute; reflexivity].
  - apply steady_is_ample.
  - apply steady_is_ample.
Defined.

(** * Further properties *)

(** ** More on the evaluation functions *)

Section ScoreCases.

Context {board : Type} `{Board board}.

(** X1.  Whenever [custom_score] returns, its value is that of
    [custom_score_2] if the game is finished for the player or at least 15
    cells are blank, and 0 otherwise. *)
Theorem custom_score_cases (fuel : nat) (game : board) (p : player)
  (r : pyfloat) :
  custom_score fuel game p = Some r ->
  r = if is_loser game p || is_winner game p
         || negb (len (get_blank_spaces game) <? 15)%Z
      then custom_score_2 game p
      else fin (inject_Z 0).
Proof.
  unfold custom_score, custom_score_2.
  destruct (is_loser game p); simpl; [intros E; now injection E | ].
  destruct (is_winner game p); simpl; [intros E; now injection E | ].
  destruct (len (get_blank_spaces game) <? 15)%Z; simpl;
    [ | intros E; now injection E].
  destruct (longestPath fuel p game 0 0) as [mine | ] eqn:Mine;
    [ | discriminate].
  destruct (longestPath fuel (get_opponent game p) game 0 0) as [theirs | ]
    eqn:Theirs; [ | discriminate].
  apply longestPath_returns_its_arguments in Mine, Theirs. subst.
  intros E. now injection E.
Qed.

Lemma for_each_completes {A B : Type} (body : A -> option B) (xs : list A) :
  (forall x, In x xs -> body x <> None) -> for_each body xs = Some tt.
Proof.
  induction xs as [ | x rest IH]; intros Ok; simpl; [reflexivity | ].
  destruct (body x) eqn:E.
  - apply IH. intros y In_y. apply Ok. now right.
  - exfalso. apply (Ok x); [now left | exact E].
Qed.

Lemma longestPath_completes (Consuming : consuming) (fuel : nat) :
  forall (p : player) (game : board) (path longest : Z),
    (length (get_blank_spaces game) < fuel)%nat ->
    longestPath fuel p game path longest = Some (Z.max path longest).
Proof.
  induction fuel as [ | fuel' IH]; intros p game path longest Fuel; [lia | ].
  simpl. rewrite for_each_completes.
  - f_equal. destruct (Z.ltb_spec longest path); lia.
  - intros m In_m. rewrite IH; [discriminate | ].
    specialize (Consuming game p m In_m). lia.
Qed.

(** X2.  On a board where every forecast of a legal move uses up a blank
    cell, [longestPath] with more fuel than there are blank cells returns,
    and returns the greater of its [path] and [longest] arguments. *)
Theorem longestPath_terminates (fuel : nat) (p : player) (game : board)
  (path longest : Z) :
  consuming ->
  (length (get_blank_spaces game) < fuel)%nat ->
  longestPath fuel p game path longest = Some (Z.max path longest).
Proof. intros Consuming. now apply longestPath_completes. Qed.

(** X3.  On such a board [custom_score] with more fuel than there are
    blank cells always returns a value. *)
Theorem custom_score_terminates (fuel : nat) (game : board) (p : player) :
  consuming ->
  (length (get_blank_spaces game) < fuel)%nat ->
  exists r, custom_score fuel game p = Some r.
Proof.
  intros Consuming Fuel. unfold custom_score.
  destruct (is_loser game p); [eauto | ].
  destruct (is_winner game p); [eauto | ].
  destruct (len (get_blank_spaces game) <? 15)%Z; [ | eauto].
  rewrite !longestPath_completes by assumption. eauto.
Qed.

Lemma nothing_is_nowhere (points : list (Q * Q)) :
  existsb (location_is None) points = false.
Proof. induction points as [ | pt rest IH]; simpl; trivial. Qed.

(** X4.  [custom_score_3] raises [TypeError] whenever the game is not
    finished for the player and the player has no location yet. *)
Theorem custom_score_3_needs_a_location (game : board) (p : player) :
  is_loser game p = false ->
  is_winner game p = false ->
  get_player_location game p = None ->
  custom_score_3 game p = None.
Proof.
  intros NotLost NotWon Nowhere. unfold custom_score_3.
  rewrite NotLost, NotWon, Nowhere.
  destruct (negb (width game mod 2 =? 0)%Z && negb (height game mod 2 =? 0)%Z);
    cbn [option_map location_is andb]; [reflexivity | ].
  now rewrite nothing_is_nowhere, andb_false_r.
Qed.

Lemma no_location_is_center (game : board) (loc : option move) :
  Z.odd (width game) = true ->
  location_is loc (inject_Z (width game) / 2, inject_Z (height game) / 2)
  = false.
Proof.
  intros Odd. destruct loc as [cell | ]; simpl; [ | reflexivity].
  now apply no_cell_is_center.
Qed.

Lemma center_is_no_cell (game : board) (cells : list move) :
  Z.odd (width game) = true ->
  existsb
    (fun cell =>
       cell_is cell (inject_Z (width game) / 2, inject_Z (height game) / 2))
    cells
  = false.
Proof.
  intros Odd. induction cells as [ | cell rest IH]; simpl; [reflexivity | ].
  now rewrite no_cell_is_center.
Qed.

(** X5.  On a board with an odd number of columns, for a player with a
    location and an unfinished game, the two tests of [custom_score_3] on
    the centre never succeed and the centre is never found among the blank
    cells: the result is plus infinity when the height is odd too, the
    opponent stands on the mirrored cell and both have as many moves, and
    otherwise the mobility difference less the squared distance to
    (width/2, height/2), times the number of blank cells.  It is never
    minus infinity. *)
Theorem custom_score_3_on_odd_width (game : board) (p : player) (y x : Z) :
  Z.odd (width game) = true ->
  is_loser game p = false ->
  is_winner game p = false ->
  get_player_location game p = Some (y, x) ->
  custom_score_3 game p
  = Some
      (if negb (height game mod 2 =? 0)%Z
          && match get_player_location game (get_opponent game p) with
             | None => false
             | Some cell =>
                 move_eqb cell (Z.abs (y - (width game - 1)),
                                Z.abs (x - (width game - 1)))
             end
          && (len (get_legal_moves game (Some p))
              =? len (get_legal_moves game (Some (get_opponent game p))))%Z
       then pos_inf
       else
         fin ((mobility_difference game p (get_opponent game p)
               - ((inject_Z (height game) / 2 - inject_Z y) ^ 2
                  + (inject_Z (width game) / 2 - inject_Z x) ^ 2))
              * inject_Z (len (get_blank_spaces game)))).
Proof.
  intros Odd NotLost NotWon Here. unfold custom_score_3.
  rewrite NotLost, NotWon, Here.
  assert (W : (width game mod 2 =? 0)%Z = false).
  { apply Z.eqb_neq. rewrite Zmod_odd, Odd. discriminate. }
  rewrite W. cbn [negb andb option_map fst snd].
  rewrite !no_location_is_center by exact Odd.
  rewrite center_is_no_cell by exact Odd.
  destruct (negb (height game mod 2 =? 0)%Z); cbn [negb andb];
    [ | reflexivity].
  destruct (_ && _); reflexivity.
Qed.

End ScoreCases.

(** ** How the searches end *)

Section Settling.

Context {board : Type} `{Board board}.
Variable self : IsolationPlayer board.
Variable time_left : nat -> Q.

Lemma settles_ret {A : Type} (a : A) : settles (@ret board A a).
Proof. intros w. simpl. split; discriminate. Qed.

Lemma settles_timeout {A : Type} : settles (@raise board A SearchTimeout).
Proof. intros w. simpl. split; discriminate. Qed.

Lemma settles_bind {A B : Type} (c : M board A) (k : A -> M board B) :
  settles c -> (forall a, settles (k a)) -> settles (bind c k).
Proof.
  intros Hc Hk w. unfold bind. destruct (Hc w) as [Fuel Value].
  destruct (c w) as [[a | e | ] w1]; simpl in *.
  - apply Hk.
  - split; [discriminate | ]. intros E. apply Value. now injection E as ->.
  - now contradiction Fuel.
Qed.

Lemma settles_check_time : settles (check_time self time_left).
Proof.
  intros w.
  destruct (check_time_cases self time_left w) as [[_ R] | [_ R]];
    rewrite R; simpl; split; discriminate.
Qed.

Lemma settles_call_score (game : board) (depth : nat) :
  settles (call_score self game depth).
Proof. intros w. simpl. split; discriminate. Qed.

Lemma minimax_min_loop_settles (child : board -> M board pyfloat) (game : board) :
  (forall g, settles (child g)) ->
  forall moves v, settles (MinimaxPlayer.min_loop self time_left child game v moves).
Proof.
  intros Hchild. induction moves as [ | m rest IH]; intros v; simpl.
  - apply settles_ret.
  - apply settles_bind; [apply settles_check_time | intros _].
    apply settles_bind; [apply Hchild | intros x; apply IH].
Qed.

Lemma minimax_max_loop_settles (child : board -> M board pyfloat) (game : board) :
  (forall g, settles (child g)) ->
  forall moves v, settles (MinimaxPlayer.max_loop self time_left child game v moves).
Proof.
  intros Hchild. induction moves as [ | m rest IH]; intros v; simpl.
  - apply settles_ret.
  - apply settles_bind; [apply settles_check_time | intros _].
    apply settles_bind; [apply Hchild | intros x; apply IH].
Qed.

(** With fuel for the plies left before the cutoff the frames of
    [minimax] never run out of it. *)
Lemma minimax_values_settle (depth : nat) :
  forall fuel game td,
    (td <= depth)%nat -> (depth - td < fuel)%nat ->
    settles (MinimaxPlayer.min_value self time_left depth fuel game td)
    /\ settles (MinimaxPlayer.max_value self time_left depth fuel game td).
Proof.
  induction fuel as [ | fuel' IH]; intros game td Le Fuel; [lia | ].
  simpl MinimaxPlayer.min_value. simpl MinimaxPlayer.max_value.
  split; (apply settles_bind; [apply settles_check_time | intros _]);
    destruct (Nat.eqb_spec td depth) as [-> | Ne];
    try apply settles_call_score.
  - apply minimax_min_loop_settles. intros g. apply IH; lia.
  - apply minimax_max_loop_settles. intros g. apply IH; lia.
Qed.

Lemma max_scan_settles (key : move -> M board pyfloat) :
  (forall m, settles (key m)) ->
  forall items max_item max_key,
    settles (MinimaxPlayer.max_scan key max_item max_key items).
Proof.
  intros Hkey. induction items as [ | item rest IH]; intros max_item max_key; simpl.
  - apply settles_ret.
  - apply settles_bind; [apply Hkey | intros k].
    destruct (ltb max_key k); apply IH.
Qed.

Lemma max_scan_lands (key : move -> M board pyfloat) :
  forall items max_item max_key,
    lands_in (fun r => r = max_item \/ In r items)
      (MinimaxPlayer.max_scan key max_item max_key items).
Proof.
  induction items as [ | item rest IH]; intros max_item max_key w r; simpl.
  - intros E. injection E as <-. now left.
  - unfold bind. destruct (key item w) as [[k | e | ] w1]; simpl;
      try discriminate.
    destruct (ltb max_key k); intros E; apply IH in E;
      destruct E as [-> | In_r]; auto.
Qed.

Lemma minimax_settles (fuel : nat) (game : board) (depth : nat) :
  (1 <= depth)%nat -> (depth <= fuel)%nat ->
  get_legal_moves game None <> [] ->
  settles (MinimaxPlayer.minimax self time_left fuel game depth).
Proof.
  intros Pos Fuel Moves. unfold MinimaxPlayer.minimax, MinimaxPlayer.max_by_key.
  destruct (get_legal_moves game None) as [ | item rest]; [contradiction | ].
  assert (Key : forall m,
             settles (MinimaxPlayer.min_value self time_left depth fuel
                        (forecast_move game m) 1)).
  { intros m. apply minimax_values_settle; lia. }
  apply settles_bind; [apply Key | intros k]. now apply max_scan_settles.
Qed.

Lemma minimax_lands (fuel : nat) (game : board) (depth : nat) :
  lands_in (fun r => In r (get_legal_moves game None))
    (MinimaxPlayer.minimax self time_left fuel game depth).
Proof.
  unfold MinimaxPlayer.minimax, MinimaxPlayer.max_by_key.
  destruct (get_legal_moves game None) as [ | item rest]; intros w r.
  - discriminate.
  - unfold bind.
    destruct (MinimaxPlayer.min_value self time_left depth fuel
                (forecast_move game item) 1 w) as [[k | e | ] w1]; simpl;
      try discriminate.
    intros E. apply max_scan_lands in E. destruct E as [-> | In_r];
      [now left | now right].
Qed.

(** X6.  On a board with at least one legal move, with a search depth of
    at least one and fuel for it, [MinimaxPlayer.get_move] returns a legal
    move whatever the clock reads. *)
Theorem minimax_get_move_is_legal (fuel : nat) (game : board)
  (w : world board) :
  (1 <= search_depth self)%nat ->
  (search_depth self <= fuel)%nat ->
  get_legal_moves game None <> [] ->
  exists m,
    fst (MinimaxPlayer.get_move self time_left fuel game w) = Returned m
    /\ In m (get_legal_moves game None).
Proof.
  intros Pos Fuel Moves.
  pose proof (minimax_settles game Pos Fuel Moves w) as [NoFuel NoValue].
  pose proof (@minimax_lands fuel game (search_depth self) w) as Lands.
  unfold MinimaxPlayer.get_move.
  destruct (get_legal_moves game None) as [ | first rest] eqn:E;
    [contradiction | ].
  unfold try_except.
  destruct (MinimaxPlayer.minimax self time_left fuel game (search_depth self) w)
    as [[m | [ | ] | ] w1]; simpl in *.
  - exists m. split; [reflexivity | now apply Lands].
  - exists first. split; [reflexivity | now left].
  - now contradiction NoValue.
  - now contradiction NoFuel.
Qed.

Lemma alphabeta_min_loop_settles
  (child : board -> pyfloat -> pyfloat -> M board pyfloat) (game : board) :
  (forall g a b, settles (child g a b)) ->
  forall moves alpha beta v,
    settles (AlphaBetaPlayer.min_loop child game alpha beta v moves).
Proof.
  intros Hchild. induction moves as [ | m rest IH]; intros alpha beta v; simpl.
  - apply settles_ret.
  - apply settles_bind; [apply Hchild | intros x].
    destruct (leb (py_min v x) alpha); [apply settles_ret | apply IH].
Qed.

Lemma alphabeta_max_loop_settles
  (child : board -> pyfloat -> pyfloat -> M board pyfloat) (game : board) :
  (forall g a b, settles (child g a b)) ->
  forall moves alpha beta v,
    settles (AlphaBetaPlayer.max_loop child game alpha beta v moves).
Proof.
  intros Hchild. induction moves as [ | m rest IH]; intros alpha beta v; simpl.
  - apply settles_ret.
  - apply settles_bind; [apply Hchild | intros x].
    destruct (leb beta (py_max v x)); [apply settles_ret | apply IH].
Qed.

Lemma alphabeta_values_settle (depth : nat) :
  forall game alpha beta,
    settles (AlphaBetaPlayer.min_value self time_left game depth alpha beta)
    /\ settles (AlphaBetaPlayer.max_value self time_left game depth alpha beta).
Proof.
  induction depth as [ | d IH]; intros game alpha beta; simpl.
  - split; (apply settles_bind; [apply settles_check_time | intros _]);
      apply settles_call_score.
  - split; (apply settles_bind; [apply settles_check_time | intros _]);
      destruct (is_empty (get_legal_moves game None));
      try apply settles_call_score.
    + apply alphabeta_min_loop_settles. intros g a b. apply IH.
    + apply alphabeta_max_loop_settles. intros g a b. apply IH.
Qed.

Lemma root_loop_settles (game : board) (depth : nat) :
  forall moves alpha beta best_val best_move,
    settles (AlphaBetaPlayer.root_loop self time_left game depth alpha beta
               best_val best_move moves).
Proof.
  induction moves as [ | m rest IH]; intros alpha beta best_val best_move; simpl.
  - apply settles_ret.
  - apply settles_bind; [apply alphabeta_values_settle | intros v]. apply IH.
Qed.

Lemma root_loop_lands (game : board) (depth : nat) :
  forall moves alpha beta best_val best_move,
    lands_in (fun r => r = best_move \/ In r moves)
      (AlphaBetaPlayer.root_loop self time_left game depth alpha beta
         best_val best_move moves).
Proof.
  induction moves as [ | m rest IH]; intros alpha beta best_val best_move w r;
    simpl.
  - intros E. injection E as <-. now left.
  - unfold bind.
    destruct (AlphaBetaPlayer.min_value self time_left (forecast_move game m)
                (depth - 1) alpha beta w) as [[v | e | ] w1]; simpl;
      try discriminate.
    intros E. apply IH in E. destruct (ltb best_val v);
      destruct E as [-> | In_r]; auto.
Qed.

(** Once some reading ahead is below the threshold, the loop of
    [AlphaBetaPlayer.get_move] ends within as many iterations as there are
    readings before it. *)
Lemma deepening_ends (game : board) (k : nat) :
  (time_left k < TIMER_THRESHOLD self)%Q ->
  forall fuel search_depth best_move w,
    (clock w <= k)%nat -> (k - clock w < fuel)%nat ->
    best_move = no_move \/ In best_move (get_legal_moves game None) ->
    exists m,
      fst (AlphaBetaPlayer.deepening self time_left fuel game search_depth
             best_move w)
      = Returned m
      /\ (m = no_move \/ In m (get_legal_moves game None)).
Proof.
  intros Low. induction fuel as [ | fuel' IH]; intros d best w Ahead Fuel Best;
    [lia | ].
  simpl. unfold bind, call_time_left.
  destruct (Qltb (TIMER_THRESHOLD self) (time_left (clock w))) eqn:Go;
    [ | now exists best].
  apply Qltb_lt in Go.
  assert (Later : k <> clock w).
  { intros ->. exact (Qlt_irrefl _ (Qlt_trans _ _ _ Low Go)). }
  unfold try_except. fold (tick w).
  pose proof (alphabeta_unwinds self time_left game d neg_inf pos_inf (tick w))
    as [Mono Unwind].
  pose proof (@root_loop_settles game d (get_legal_moves game None) neg_inf
                pos_inf neg_inf no_move (tick w)) as [NoFuel NoValue].
  pose proof (@root_loop_lands game d (get_legal_moves game None) neg_inf
                pos_inf neg_inf no_move (tick w)) as Lands.
  fold (AlphaBetaPlayer.alphabeta self time_left game d neg_inf pos_inf)
    in NoFuel, NoValue, Lands.
  destruct (AlphaBetaPlayer.alphabeta self time_left game d neg_inf pos_inf
              (tick w)) as [[m | [ | ] | ] w1]; simpl in *.
  - apply IH.
    + destruct (Nat.le_gt_cases (clock w1) k) as [Le | Gt]; [exact Le | ].
      assert (X : expired_between self time_left (tick w) w1)
        by (exists k; simpl; split; [lia | exact Low]).
      apply Unwind in X. discriminate.
    + lia.
    + now apply Lands.
  - now exists best.
  - now contradiction NoValue.
  - now contradiction NoFuel.
Qed.

(** X7.  If some reading of the clock still to come is below the
    threshold, [AlphaBetaPlayer.get_move] returns, within as many
    iterations as there are readings before it, and what it returns is a
    legal move or [(-1, -1)]. *)
Theorem alphabeta_get_move_ends (fuel : nat) (game : board) (w : world board)
  (k : nat) :
  (clock w <= k)%nat ->
  (time_left k < TIMER_THRESHOLD self)%Q ->
  (k - clock w < fuel)%nat ->
  exists m,
    fst (AlphaBetaPlayer.get_move self time_left fuel game w) = Returned m
    /\ (m = no_move \/ In m (get_legal_moves game None)).
Proof.
  intros Ahead Low Fuel. unfold AlphaBetaPlayer.get_move.
  destruct (get_legal_moves game None) as [ | first rest] eqn:Moves.
  - exists no_move. split; [reflexivity | now left].
  - rewrite <- Moves. apply deepening_ends with (k := k); trivial.
    right. rewrite Moves. now left.
Qed.

Lemma deepening_exhausted (game : board) (n : nat) :
  forall fuel search_depth best_move w m_n w_n,
    completed_iterations self time_left n game search_depth best_move w
    = Some (m_n, w_n) ->
    ~ (TIMER_THRESHOLD self < time_left (clock w_n))%Q ->
    (n < fuel)%nat ->
    fst (AlphaBetaPlayer.deepening self time_left fuel game search_depth
           best_move w)
    = Returned m_n.
Proof.
  induction n as [ | n' IH]; intros fuel d best w m_n w_n Done Stop Fuel;
    (destruct fuel as [ | fuel']; [lia | ]); simpl in Done.
  - injection Done as -> ->.
    simpl. unfold bind, call_time_left. apply Qltb_ge in Stop. now rewrite Stop.
  - simpl. unfold bind, call_time_left.
    destruct (Qltb (TIMER_THRESHOLD self) (time_left (clock w)));
      [ | discriminate].
    unfold try_except. fold (tick w).
    destruct (AlphaBetaPlayer.alphabeta self time_left game d neg_inf pos_inf
                (tick w)) as [[m | e | ] w']; try discriminate.
    apply (IH fuel' (d + 1)%nat m w' m_n w_n Done Stop). lia.
Qed.

(** X8.  When the iterations at depths 1 to [n] complete and the reading
    taken before the next one is not above the threshold,
    [AlphaBetaPlayer.get_move] returns the result of the last iteration;
    with no iteration at all ([n = 0]) that is the first legal move. *)
Theorem get_move_returns_last_iteration (game : board) (w : world board)
  (n fuel : nat) (first m_n : move) (w_n : world board) :
  hd_error (get_legal_moves game None) = Some first ->
  completed_iterations self time_left n game 1 first w = Some (m_n, w_n) ->
  ~ (TIMER_THRESHOLD self < time_left (clock w_n))%Q ->
  (n < fuel)%nat ->
  fst (AlphaBetaPlayer.get_move self time_left fuel game w) = Returned m_n.
Proof.
  intros First Done Stop Fuel. unfold AlphaBetaPlayer.get_move.
  destruct (get_legal_moves game None) as [ | m rest]; [discriminate | ].
  injection First as ->.
  eapply deepening_exhausted; eassumption.
Qed.

End Settling.

(** ** A low reading is the last reading *)

Section Stopping.

Context {board : Type} `{Board board}.
Variable self : IsolationPlayer board.
Variable time_left : nat -> Q.

Lemma stops_without_reading {A : Type} (c : M board A) :
  (forall w, clock (snd (c w)) = clock w) -> stops_when_low self time_left c.
Proof. intros Same w k R. rewrite Same in R. lia. Qed.

Lemma stops_check_time : stops_when_low self time_left (check_time self time_left).
Proof.
  intros w k R _. revert R.
  destruct (check_time_cases self time_left w) as [[_ E] | [_ E]];
    rewrite E; simpl; lia.
Qed.

Lemma stops_bind {A B : Type} (c : M board A) (k : A -> M board B) :
  unwinds self time_left c ->
  stops_when_low self time_left c ->
  (forall a, stops_when_low self time_left (k a)) ->
  stops_when_low self time_left (bind c k).
Proof.
  intros Uc Sc Sk w j. unfold bind.
  destruct (Uc w) as [Mono Unwind]. specialize (Sc w j).
  destruct (c w) as [[a | e | ] w1]; simpl in *; try exact Sc.
  intros R Low.
  destruct (Nat.lt_ge_cases j (clock w1)) as [Early | Late].
  - assert (X : expired_between self time_left w w1)
      by (exists j; split; [lia | exact Low]).
    apply Unwind in X. discriminate.
  - apply Sk; [lia | exact Low].
Qed.

Lemma minimax_min_loop_stops (child : board -> M board pyfloat) (game : board) :
  (forall g, unwinds self time_left (child g)) ->
  (forall g, stops_when_low self time_left (child g)) ->
  forall moves v,
    stops_when_low self time_left
      (MinimaxPlayer.min_loop self time_left child game v moves).
Proof.
  intros Uchild Schild. induction moves as [ | m rest IH]; intros v; simpl.
  - now apply stops_without_reading.
  - apply stops_bind;
      [apply unwinds_check_time | apply stops_check_time | intros _].
    apply stops_bind; [apply Uchild | apply Schild | intros x; apply IH].
Qed.

Lemma minimax_max_loop_stops (child : board -> M board pyfloat) (game : board) :
  (forall g, unwinds self time_left (child g)) ->
  (forall g, stops_when_low self time_left (child g)) ->
  forall moves v,
    stops_when_low self time_left
      (MinimaxPlayer.max_loop self time_left child game v moves).
Proof.
  intros Uchild Schild. induction moves as [ | m rest IH]; intros v; simpl.
  - now apply stops_without_reading.
  - apply stops_bind;
      [apply unwinds_check_time | apply stops_check_time | intros _].
    apply stops_bind; [apply Uchild | apply Schild | intros x; apply IH].
Qed.

Lemma minimax_values_stop (depth fuel : nat) :
  forall game td,
    stops_when_low self time_left
      (MinimaxPlayer.min_value self time_left depth fuel game td)
    /\ stops_when_low self time_left
         (MinimaxPlayer.max_value self time_left depth fuel game td).
Proof.
  induction fuel as [ | fuel' IH]; intros game td; simpl.
  - split; now apply stops_without_reading.
  - split;
      (apply stops_bind;
       [apply unwinds_check_time | apply stops_check_time | intros _]);
      destruct (td =? depth)%nat; try now apply stops_without_reading.
    + apply minimax_min_loop_stops; intros g.
      * apply minimax_values_unwind.
      * apply IH.
    + apply minimax_max_loop_stops; intros g.
      * apply minimax_values_unwind.
      * apply IH.
Qed.

Lemma max_scan_stops (key : move -> M board pyfloat) :
  (forall m, unwinds self time_left (key m)) ->
  (forall m, stops_when_low self time_left (key m)) ->
  forall items max_item max_key,
    stops_when_low self time_left
      (MinimaxPlayer.max_scan key max_item max_key items).
Proof.
  intros Ukey Skey.
  induction items as [ | item rest IH]; intros max_item max_key; simpl.
  - now apply stops_without_reading.
  - apply stops_bind; [apply Ukey | apply Skey | intros k].
    destruct (ltb max_key k); apply IH.
Qed.

Lemma minimax_stops (fuel : nat) (game : board) (depth : nat) :
  stops_when_low self time_left
    (MinimaxPlayer.minimax self time_left fuel game depth).
Proof.
  unfold MinimaxPlayer.minimax, MinimaxPlayer.max_by_key.
  destruct (get_legal_moves game None) as [ | item rest].
  - now apply stops_without_reading.
  - apply stops_bind;
      [apply minimax_values_unwind | apply minimax_values_stop | intros k].
    apply max_scan_stops; intros m.
    + apply minimax_values_unwind.
    + apply minimax_values_stop.
Qed.

Lemma alphabeta_min_loop_stops
  (child : board -> pyfloat -> pyfloat -> M board pyfloat) (game : board) :
  (forall g a b, unwinds self time_left (child g a b)) ->
  (forall g a b, stops_when_low self time_left (child g a b)) ->
  forall moves alpha beta v,
    stops_when_low self time_left
      (AlphaBetaPlayer.min_loop child game alpha beta v moves).
Proof.
  intros Uchild Schild.
  induction moves as [ | m rest IH]; intros alpha beta v; simpl.
  - now apply stops_without_reading.
  - apply stops_bind; [apply Uchild | apply Schild | intros x].
    destruct (leb (py_min v x) alpha);
      [now apply stops_without_reading | apply IH].
Qed.

Lemma alphabeta_max_loop_stops
  (child : board -> pyfloat -> pyfloat -> M board pyfloat) (game : board) :
  (forall g a b, unwinds self time_left (child g a b)) ->
  (forall g a b, stops_when_low self time_left (child g a b)) ->
  forall moves alpha beta v,
    stops_when_low self time_left
      (AlphaBetaPlayer.max_loop child game alpha beta v moves).
Proof.
  intros Uchild Schild.
  induction moves as [ | m rest IH]; intros alpha beta v; simpl.
  - now apply stops_without_reading.
  - apply stops_bind; [apply Uchild | apply Schild | intros x].
    destruct (leb beta (py_max v x));
      [now apply stops_without_reading | apply IH].
Qed.

Lemma alphabeta_values_stop (depth : nat) :
  forall game alpha beta,
    stops_when_low self time_left
      (AlphaBetaPlayer.min_value self time_left game depth alpha beta)
    /\ stops_when_low self time_left
         (AlphaBetaPlayer.max_value self time_left game depth alpha beta).
Proof.
  induction depth as [ | d IH]; intros game alpha beta; simpl.
  - split;
      (apply stops_bind;
       [apply unwinds_check_time | apply stops_check_time | intros _]);
      now apply stops_without_reading.
  - split;
      (apply stops_bind;
       [apply unwinds_check_time | apply stops_check_time | intros _]);
      destruct (is_empty (get_legal_moves game None));
      try now apply stops_without_reading.
    + apply alphabeta_min_loop_stops; intros g a b.
      * apply alphabeta_values_unwind.
      * apply IH.
    + apply alphabeta_max_loop_stops; intros g a b.
      * apply alphabeta_values_unwind.
      * apply IH.
Qed.

Lemma alphabeta_stops (game : board) (depth : nat) (alpha beta : pyfloat) :
  stops_when_low self time_left
    (AlphaBetaPlayer.alphabeta self time_left game depth alpha beta).
Proof.
  unfold AlphaBetaPlayer.alphabeta.
  generalize no_move as best_move, neg_inf as best_val. revert alpha.
  induction (get_legal_moves game None) as [ | m rest IH];
    intros alpha best_move best_val; simpl.
  - now apply stops_without_reading.
  - apply stops_bind;
      [apply alphabeta_values_unwind | apply alphabeta_values_stop | intros v].
    apply IH.
Qed.

(** X9.  A search reads the clock no more once a reading was below the
    threshold: in a run of [minimax] or of [alphabeta] that takes the
    [k]-th reading and finds it low, that reading is the last one. *)
Theorem search_stops_at_low_reading (fuel : nat) (game : board) (depth : nat)
  (w : world board) (k : nat) :
  (time_left k < TIMER_THRESHOLD self)%Q ->
  ((clock w <= k
    < clock (snd (MinimaxPlayer.minimax self time_left fuel game depth w)))%nat ->
   clock (snd (MinimaxPlayer.minimax self time_left fuel game depth w)) = S k)
  /\ ((clock w <= k
       < clock (snd (AlphaBetaPlayer.alphabeta self time_left game depth
                       neg_inf pos_inf w)))%nat ->
      clock (snd (AlphaBetaPlayer.alphabeta self time_left game depth
                    neg_inf pos_inf w))
      = S k).
Proof.
  intros Low. split; intros R.
  - now apply minimax_stops.
  - now apply alphabeta_stops.
Qed.

End Stopping.

(** ** What the searches return under an ample budget *)

Section Optimality.

Context {board : Type} `{Board board}.
Variable self : IsolationPlayer board.
Variable time_left : nat -> Q.

Local Open Scope pyfloat_scope.

(** X10.  Alpha-beta pruning is sound.  Under an ample budget and in a
    window with [alpha < beta], [AlphaBetaPlayer.min_value] and [max_value]
    return a value that lies on the same side of the window as the value of
    the search without cuts, and equals it inside the window. *)
Theorem alphabeta_values_are_sound (game : board) (depth : nat)
  (alpha beta : pyfloat) (w : world board) :
  ample self time_left w ->
  alpha < beta ->
  (exists r w',
      AlphaBetaPlayer.min_value self time_left game depth alpha beta w
      = (Returned r, w')
      /\ brackets alpha beta r (exact_min self depth game))
  /\ (exists r w',
         AlphaBetaPlayer.max_value self time_left game depth alpha beta w
         = (Returned r, w')
         /\ brackets alpha beta r (exact_max self depth game)).
Proof.
  intros Aw Window.
  destruct (alphabeta_values_return self time_left depth game alpha beta)
    as [Min Max].
  destruct (Min w Aw) as [w1 [Run1 _]]. destruct (Max w Aw) as [w2 [Run2 _]].
  destruct (pruned_values_bracket self depth game Window) as [B1 B2].
  split; eauto.
Qed.

(** A scan that starts from an element and its value returns the first
    element of greatest value. *)
Lemma best_from_is_first_best (value : move -> pyfloat) :
  forall moves best_move,
    first_best value (best_move :: moves)
      (best_from value (value best_move) best_move moves).
Proof.
  induction moves as [ | m rest IH]; intros bm; simpl.
  - exists [], []. repeat split; intros m [].
  - destruct (ltb_spec (value bm) (value m)) as [Better | NotBetter].
    + destruct (IH m) as [before [after [Split [Before After]]]].
      revert Split Before After.
      generalize (best_from value (value m) m rest). intros r Split Before After.
      exists (bm :: before), after. rewrite Split. repeat split; trivial.
      intros m' [<- | In_m']; [ | now apply Before].
      destruct before as [ | b before']; simpl in Split;
        injection Split as E _; subst.
      * exact Better.
      * pose proof (Before b (or_introl eq_refl)). pf_order.
    + destruct (IH bm) as [before [after [Split [Before After]]]].
      revert Split Before After.
      generalize (best_from value (value bm) bm rest).
      intros r Split Before After.
      destruct before as [ | b before']; simpl in Split;
        injection Split as E1 E2; subst.
      * exists [], (m :: after). repeat split; [intros m' [] | ].
        intros m' [<- | In_m']; [exact NotBetter | now apply After].
      * exists (b :: m :: before'), after. repeat split; trivial.
        intros m' [<- | [<- | In_m']].
        -- apply Before. now left.
        -- pose proof (Before b (or_introl eq_refl)). pf_order.
        -- apply Before. now right.
Qed.

(** A scan that starts from minus infinity and [(-1, -1)] returns
    [(-1, -1)] when no value is above minus infinity, and the first element
    of greatest value otherwise. *)
Lemma best_from_bottom (value : move -> pyfloat) :
  forall moves,
    (best_from value neg_inf no_move moves = no_move
     /\ forall m, In m moves -> value m = neg_inf)
    \/ (first_best value moves (best_from value neg_inf no_move moves)
        /\ neg_inf < value (best_from value neg_inf no_move moves)).
Proof.
  induction moves as [ | m rest IH]; simpl.
  - left. split; [reflexivity | intros m []].
  - destruct (ltb_spec neg_inf (value m)) as [Above | Bottom].
    + right. pose proof (best_from_is_first_best value rest m) as First.
      split; [exact First | ].
      revert First. generalize (best_from value (value m) m rest).
      intros r [before [after [Split [Before _]]]].
      destruct before as [ | b before']; simpl in Split;
        injection Split as E _; subst.
      * exact Above.
      * pose proof (Before b (or_introl eq_refl)). pf_order.
    + assert (E : value m = neg_inf).
      { apply eq_neg_inf. pose proof (neg_inf_least (value m)). pf_order. }
      destruct IH as [[None Lost] | [First Above]].
      * left. split; [exact None | ].
        intros m' [<- | In_m']; [exact E | now apply Lost].
      * right. split; [ | exact Above].
        destruct First as [before [after [Split [Before After]]]].
        exists (m :: before), after. rewrite Split at 1.
        repeat split; trivial.
        intros m' [<- | In_m']; [ | now apply Before].
        rewrite E. exact Above.
Qed.

Lemma minimax_returns_first_best (fuel : nat) (game : board) (depth : nat)
  (w : world board) :
  (1 <= depth)%nat -> (depth <= fuel)%nat ->
  get_legal_moves game None <> [] ->
  ample self time_left w ->
  exists r,
    fst (MinimaxPlayer.minimax self time_left fuel game depth w) = Returned r
    /\ first_best (backed_up_value self depth game)
         (get_legal_moves game None) r.
Proof.
  intros Pos Fuel Moves Aw.
  destruct (get_legal_moves game None) as [ | m0 rest] eqn:E;
    [contradiction | ].
  destruct (minimax_returns game Pos Fuel E Aw) as [w1 [Run _]].
  rewrite Run. simpl. eexists. split; [reflexivity | ].
  apply best_from_is_first_best.
Qed.

(** X11.  Under an ample budget, with a depth of at least one and fuel for
    it, [MinimaxPlayer.minimax] on a board with legal moves returns the
    first of the moves whose backed-up value is greatest: the moves before
    it have a strictly smaller value, the moves after it none greater. *)
Theorem minimax_returns_best_move (fuel : nat) (game : board) (depth : nat)
  (w : world board) :
  (1 <= depth)%nat -> (depth <= fuel)%nat ->
  get_legal_moves game None <> [] ->
  ample self time_left w ->
  exists r,
    fst (MinimaxPlayer.minimax self time_left fuel game depth w) = Returned r
    /\ first_best (backed_up_value self depth game)
         (get_legal_moves game None) r.
Proof. apply minimax_returns_first_best. Qed.

(** X12.  Under an ample budget [AlphaBetaPlayer.alphabeta], for any
    evaluation function, returns the first of the moves whose value in the
    search without cuts is greatest, provided that value is above minus
    infinity; when every move has the value minus infinity it returns
    [(-1, -1)]. *)
Theorem alphabeta_returns_best_move (game : board) (depth : nat)
  (w : world board) :
  (1 <= depth)%nat ->
  ample self time_left w ->
  exists r,
    fst (AlphaBetaPlayer.alphabeta self time_left game depth neg_inf pos_inf w)
    = Returned r
    /\ ((r = no_move
         /\ forall m, In m (get_legal_moves game None) ->
                      exact_min self (depth - 1) (forecast_move game m)
                      = neg_inf)
        \/ (first_best
              (fun m => exact_min self (depth - 1) (forecast_move game m))
              (get_legal_moves game None) r
            /\ neg_inf < exact_min self (depth - 1) (forecast_move game r))).
Proof.
  intros _ Aw.
  destruct (alphabeta_returns game depth neg_inf pos_inf Aw) as [w' [Run _]].
  rewrite Run. simpl. eexists. split; [reflexivity | ].
  rewrite pruned_root_best_from by reflexivity.
  apply (best_from_bottom
           (fun m => exact_min self (depth - 1) (forecast_move game m))).
Qed.

(** X13.  [MinimaxPlayer.minimax] does not miss an immediate win.  Under an
    ample budget and with a depth of at least two, if some legal move
    leaves the opponent without a move, the move returned has the backed-up
    value plus infinity, whatever the evaluation function. *)
Theorem minimax_takes_a_winning_move (fuel : nat) (game : board)
  (depth : nat) (w : world board) (m : move) :
  (2 <= depth)%nat -> (depth <= fuel)%nat ->
  In m (get_legal_moves game None) ->
  get_legal_moves (forecast_move game m) None = [] ->
  ample self time_left w ->
  exists r,
    fst (MinimaxPlayer.minimax self time_left fuel game depth w) = Returned r
    /\ In r (get_legal_moves game None)
    /\ backed_up_value self depth game r = pos_inf.
Proof.
  intros Deep Fuel In_m Dead Aw.
  assert (Moves : get_legal_moves game None <> [])
    by (intros E; rewrite E in In_m; destruct In_m).
  destruct (@minimax_returns_first_best fuel game depth w) as [r [Run First]];
    trivial; [lia | ].
  exists r. split; [exact Run | ].
  destruct First as [before [after [Split [Before After]]]].
  assert (Win : backed_up_value self depth game m = pos_inf).
  { unfold backed_up_value.
    replace (depth - 1)%nat with (S (depth - 2)) by lia. simpl.
    now rewrite Dead. }
  split.
  - rewrite Split. apply in_or_app. right. now left.
  - apply eq_pos_inf.
    pose proof (pos_inf_greatest (backed_up_value self depth game r)) as Top.
    rewrite Split in In_m. apply in_app_or in In_m.
    destruct In_m as [In_b | [<- | In_a]].
    + specialize (Before m In_b). rewrite Win in Before. pf_order.
    + rewrite Win. reflexivity.
    + specialize (After m In_a). rewrite Win in After. pf_order.
Qed.

End Optimality.

(** ** The concrete board uses up a cell with every move *)

Lemma filter_flat_map {A B : Type} (f : B -> bool) (g : A -> list B)
  (xs : list A) :
  filter f (flat_map g xs) = flat_map (fun x => filter f (g x)) xs.
Proof.
  induction xs as [ | x rest IH]; simpl; [reflexivity | ].
  now rewrite filter_app, IH.
Qed.

Lemma filter_twice {A : Type} (f g : A -> bool) (xs : list A) :
  filter f (filter g xs) = filter (fun x => g x && f x) xs.
Proof.
  induction xs as [ | x rest IH]; simpl; [reflexivity | ].
  destruct (g x); simpl; [destruct (f x) | ]; now rewrite IH.
Qed.

Lemma filter_out_shortens (m : move) (cells : list move) :
  In m cells ->
  (length (filter (fun c => negb (move_eqb c m)) cells) < length cells)%nat.
Proof.
  induction cells as [ | c rest IH]; intros In_m; [destruct In_m | ].
  simpl. destruct (move_eqb c m) eqn:E; simpl.
  - pose proof (filter_length_le (fun c => negb (move_eqb c m)) rest). lia.
  - destruct In_m as [-> | In_rest].
    + unfold move_eqb in E. rewrite !Z.eqb_refl in E. discriminate.
    + specialize (IH In_rest). lia.
Qed.

Lemma in_range (n i : Z) : (0 <= i < n)%Z -> In i (Isolation.range n).
Proof.
  intros R. unfold Isolation.range. apply in_map_iff.
  exists (Z.to_nat i). split; [lia | ]. apply in_seq. lia.
Qed.

Lemma legal_is_blank (g : Isolation.Grid) (m : move) :
  Isolation.move_is_legal g m = true -> In m (Isolation.blank_spaces g).
Proof.
  intros Legal. pose proof Legal as Bounds.
  unfold Isolation.move_is_legal in Bounds.
  rewrite !andb_true_iff in Bounds.
  destruct Bounds as [[[[R0 R1] C0] C1] _].
  apply Z.leb_le in R0, C0. apply Z.ltb_lt in R1, C1.
  unfold Isolation.blank_spaces. apply in_flat_map.
  exists (snd m). split; [apply in_range; lia | ].
  apply filter_In. split; [ | exact Legal].
  apply in_map_iff. exists (fst m). split; [now destruct m | apply in_range; lia].
Qed.

Lemma blank_after_move (g : Isolation.Grid) (m : move) :
  Isolation.blank_spaces (Isolation.apply_move g m)
  = filter (fun c => negb (move_eqb c m)) (Isolation.blank_spaces g).
Proof.
  unfold Isolation.blank_spaces. rewrite filter_flat_map.
  cbn [Isolation.apply_move Isolation.grid_width Isolation.grid_height].
  apply flat_map_ext. intros j. rewrite filter_twice.
  apply filter_ext. intros c. unfold Isolation.move_is_legal.
  cbn [Isolation.apply_move Isolation.grid_width Isolation.grid_height
         Isolation.taken existsb].
  rewrite negb_orb.
  destruct (move_eqb c m); rewrite ?andb_true_r, ?andb_false_r; simpl;
    rewrite ?andb_true_r, ?andb_false_r; reflexivity.
Qed.

Lemma isolation_consuming : consuming (board := Isolation.Grid).
Proof.
  intros g p m In_m.
  change (forecast_move g m) with (Isolation.apply_move g m).
  change (get_blank_spaces (Isolation.apply_move g m))
    with (Isolation.blank_spaces (Isolation.apply_move g m)).
  change (get_blank_spaces g) with (Isolation.blank_spaces g).
  rewrite blank_after_move. apply filter_out_shortens.
  change (get_legal_moves g (Some p))
    with (Isolation.moves_from g (Isolation.location g p)) in In_m.
  unfold Isolation.moves_from in In_m.
  destruct (Isolation.location g p) as [[r c] | ]; [ | exact In_m].
  apply filter_In in In_m. apply legal_is_blank. apply In_m.
Qed.

(** ** The further properties on concrete games *)

Lemma custom_score_cases_witness :
  fin (inject_Z 0)
  = if is_loser endgame_3x3 player_1 || is_winner endgame_3x3 player_1
       || negb (len (get_blank_spaces endgame_3x3) <? 15)%Z
    then custom_score_2 endgame_3x3 player_1
    else fin (inject_Z 0).
Proof.
  apply (@custom_score_cases _ _ 10 endgame_3x3 player_1 (fin (inject_Z 0))).
  vm_compute. reflexivity.
Defined.

Lemma longestPath_terminates_witness :
  longestPath 6 player_1 endgame_3x3 0 0 = Some (Z.max 0 0).
Proof.
  apply (@longestPath_terminates _ _ 6 player_1 endgame_3x3 0%Z 0%Z).
  - exact isolation_consuming.
  - vm_compute. lia.
Defined.

Lemma custom_score_terminates_witness :
  exists r, custom_score 6 endgame_3x3 player_1 = Some r.
Proof.
  apply (@custom_score_terminates _ _ 6 endgame_3x3 player_1).
  - exact isolation_consuming.
  - vm_compute. lia.
Defined.

Lemma custom_score_3_needs_a_location_witness :
  custom_score_3 (Isolation.new_board 7 7) player_1 = None.
Proof.
  apply (@custom_score_3_needs_a_location _ _ (Isolation.new_board 7 7) player_1);
    reflexivity.
Defined.

Lemma custom_score_3_on_odd_width_witness :
  custom_score_3 centre_7x7 player_1
  = Some
      (if negb (height centre_7x7 mod 2 =? 0)%Z
          && match get_player_location centre_7x7
                     (get_opponent centre_7x7 player_1) with
             | None => false
             | Some cell =>
                 move_eqb cell (Z.abs (3 - (width centre_7x7 - 1)),
                                Z.abs (3 - (width centre_7x7 - 1)))
             end
          && (len (get_legal_moves centre_7x7 (Some player_1))
              =? len (get_legal_moves centre_7x7
                        (Some (get_opponent centre_7x7 player_1))))%Z
       then pos_inf
       else
         fin ((mobility_difference centre_7x7 player_1
                 (get_opponent centre_7x7 player_1)
               - ((inject_Z (height centre_7x7) / 2 - inject_Z 3) ^ 2
                  + (inject_Z (width centre_7x7) / 2 - inject_Z 3) ^ 2))
              * inject_Z (len (get_blank_spaces centre_7x7)))).
Proof.
  apply (@custom_score_3_on_odd_width _ _ centre_7x7 player_1 3%Z 3%Z);
    reflexivity.
Defined.

Lemma minimax_get_move_is_legal_witness :
  exists m,
    fst (MinimaxPlayer.get_move (agent custom_score_2) draining 3
           endgame_3x3 start)
    = Returned m
    /\ In m (get_legal_moves endgame_3x3 None).
Proof.
  apply (@minimax_get_move_is_legal _ _ (agent custom_score_2) draining 3
           endgame_3x3 start).
  - simpl. lia.
  - simpl. lia.
  - discriminate.
Defined.

Lemma alphabeta_get_move_ends_witness :
  exists m,
    fst (AlphaBetaPlayer.get_move (agent custom_score_2) (cut_after 3) 4
           endgame_3x3 start)
    = Returned m
    /\ (m = no_move \/ In m (get_legal_moves endgame_3x3 None)).
Proof.
  apply (@alphabeta_get_move_ends _ _ (agent custom_score_2) (cut_after 3) 4
           endgame_3x3 start 3).
  - simpl. lia.
  - vm_compute. reflexivity.
  - simpl. lia.
Defined.

Lemma get_move_returns_last_iteration_witness :
  fst (AlphaBetaPlayer.get_move (agent custom_score_2) (cut_after 2) 2
         endgame_3x3 start)
  = Returned (2, 1)%Z.
Proof.
  apply (@get_move_returns_last_iteration _ _ (agent custom_score_2)
           (cut_after 2) endgame_3x3 start 1 2 (2, 1)%Z (2, 1)%Z
           (snd (AlphaBetaPlayer.alphabeta (agent custom_score_2)
                   (cut_after 2) endgame_3x3 1 neg_inf pos_inf (tick start)))).
  - reflexivity.
  - vm_compute. reflexivity.
  - vm_compute. discriminate.
  - lia.
Defined.

Lemma search_stops_at_low_reading_witness :
  clock (snd (MinimaxPlayer.minimax (agent custom_score_2) (cut_after 1) 5
                endgame_3x3 3 start))
  = 2%nat
  /\ clock (snd (AlphaBetaPlayer.alphabeta (agent custom_score_2)
                   (cut_after 1) endgame_3x3 3 neg_inf pos_inf start))
     = 2%nat.
Proof.
  destruct (@search_stops_at_low_reading _ _ (agent custom_score_2)
              (cut_after 1) 5 endgame_3x3 3 start 1)
    as [Minimax Alphabeta].
  - vm_compute. reflexivity.
  - split.
    + apply Minimax. vm_compute. lia.
    + apply Alphabeta. vm_compute. lia.
Defined.

Lemma alphabeta_values_are_sound_witness :
  (exists r w',
      AlphaBetaPlayer.min_value (agent custom_score_2) steady corridor_2x9 2
        neg_inf pos_inf start
      = (Returned r, w')
      /\ brackets neg_inf pos_inf r
           (exact_min (agent custom_score_2) 2 corridor_2x9))
  /\ (exists r w',
         AlphaBetaPlayer.max_value (agent custom_score_2) steady corridor_2x9 2
           neg_inf pos_inf start
         = (Returned r, w')
         /\ brackets neg_inf pos_inf r
              (exact_max (agent custom_score_2) 2 corridor_2x9)).
Proof.
  apply (@alphabeta_values_are_sound _ _ (agent custom_score_2) steady
           corridor_2x9 2 neg_inf pos_inf start).
  - apply steady_is_ample.
  - reflexivity.
Defined.

Lemma minimax_returns_best_move_witness :
  exists r,
    fst (MinimaxPlayer.minimax (agent custom_score_2) steady 2 corridor_2x9 2
           start)
    = Returned r
    /\ first_best (backed_up_value (agent custom_score_2) 2 corridor_2x9)
         (get_legal_moves corridor_2x9 None) r.
Proof.
  apply (@minimax_returns_best_move _ _ (agent custom_score_2) steady 2
           corridor_2x9 2 start).
  - lia.
  - lia.
  - discriminate.
  - apply steady_is_ample.
Defined.

Lemma alphabeta_returns_best_move_witness :
  exists r,
    fst (AlphaBetaPlayer.alphabeta (agent custom_score_2) steady corridor_2x9 2
           neg_inf pos_inf start)
    = Returned r
    /\ ((r = no_move
         /\ forall m, In m (get_legal_moves corridor_2x9 None) ->
                      exact_min (agent custom_score_2) (2 - 1)
                        (forecast_move corridor_2x9 m)
                      = neg_inf)
        \/ (first_best
              (fun m => exact_min (agent custom_score_2) (2 - 1)
                          (forecast_move corridor_2x9 m))
              (get_legal_moves corridor_2x9 None) r
            /\ pf_lt neg_inf
                 (exact_min (agent custom_score_2) (2 - 1)
                    (forecast_move corridor_2x9 r)))).
Proof.
  apply (@alphabeta_returns_best_move _ _ (agent custom_score_2) steady
           corridor_2x9 2 start).
  - lia.
  - apply steady_is_ample.
Defined.

Lemma minimax_takes_a_winning_move_witness :
  exists r,
    fst (MinimaxPlayer.minimax (agent mobility) steady 2 corridor_2x9 2 start)
    = Returned r
    /\ In r (get_legal_moves corridor_2x9 None)
    /\ backed_up_value (agent mobility) 2 corridor_2x9 r = pos_inf.
Proof.
  apply (@minimax_takes_a_winning_move _ _ (agent mobility) steady 2
           corridor_2x9 2 start (1, 6)%Z).
  - lia.
  - lia.
  - right. left. reflexivity.
  - reflexivity.
  - apply steady_is_ample.
Defined.
